(** * Pre-commit hashing for RNG aggregation: a shallow embedding

    This development embeds [pre_commit_hashing.py] in Rocq and proves
    properties of its commit / reveal / XOR primitives.

    Conventions.
    - Python [bytes] values are [list byte] (the 256-constructor type of the
      Standard Library), Python [int]s are [Z].
    - A Python call that may raise returns a [result]; the exception class is
      recorded in [error].  Running out of memory is not an exception of
      the model: an [Ok] says what the call returns when its allocations
      succeed.
    - [hashlib.sha256] is embedded as an executable function ([SHA256.digest],
      FIPS 180-4) and checked on published test vectors.
    - [nacl.public.Box] and [utilitybelt.dev_urandom_entropy] are external
      collaborators; the code is embedded over an interface for each. *)

From Stdlib Require Import ZArith Zpow_facts List Bool Lia.
From Stdlib Require Import Strings.Byte.
From Stdlib Require Import Permutation Ascii String DecimalString.
Import ListNotations.

Local Open Scope Z_scope.

(* ------------------------------------------------------------------ *)
(** ** Exceptions and the error monad *)

(** The Python exception classes the embedded code can raise. *)
Inductive error : Type :=
| IndexError      (* list index out of range *)
| OverflowError   (* int.to_bytes: negative, or too big for the length *)
| ValueError      (* bytes(n) or os.urandom(n) with n < 0 *)
| CryptoError.    (* nacl.exceptions.CryptoError: authentication failed *)

Inductive result (A : Type) : Type :=
| Ok  : A -> result A
| Err : error -> result A.

Arguments Ok {A} _.
Arguments Err {A} _.

Definition bind {A B : Type} (m : result A) (k : A -> result B) : result B :=
  match m with
  | Ok a => k a
  | Err e => Err e
  end.

Notation "x <- m ;; k" := (bind m (fun x => k))
  (at level 61, m at next level, right associativity).

(* ------------------------------------------------------------------ *)
(** ** Bytes *)

Definition bytes : Type := list byte.

Definition byte_to_Z (b : byte) : Z := Z.of_N (Byte.to_N b).

(** The byte whose value is [z mod 256]. *)
Definition byte_of_Z (z : Z) : byte :=
  match Byte.of_N (Z.to_N (z mod 256)) with
  | Some b => b
  | None => x00
  end.

(** [a ^ b] on two values read from a [bytes] object, stored back into a
    [bytes] object.  Both operands are below 256, hence so is the result and
    the [bytes(...)] constructor never raises. *)
Definition byte_xor (a b : byte) : byte :=
  byte_of_Z (Z.lxor (byte_to_Z a) (byte_to_Z b)).

(** [==] on [bytes]. *)
Fixpoint bytes_eqb (a b : bytes) : bool :=
  match a, b with
  | [], [] => true
  | p :: a', q :: b' => Byte.eqb p q && bytes_eqb a' b'
  | _, _ => false
  end.

(* ------------------------------------------------------------------ *)
(** ** Python built-ins used by the module *)

(** [int.bit_length()]: the number of bits of [abs x], 0 for 0. *)
Definition bit_length (x : Z) : Z :=
  if x =? 0 then 0 else Z.log2 (Z.abs x) + 1.

(** The [k] low-order base-256 digits of [x], least significant first. *)
Fixpoint le_digits (k : nat) (x : Z) : bytes :=
  match k with
  | O => []
  | S k' => byte_of_Z (x mod 256) :: le_digits k' (x / 256)
  end.

(** [x.to_bytes(length, 'big')] (unsigned): raises [ValueError] on a
    negative [length], [OverflowError] on a negative [x] and on an [x] that
    does not fit in [length] bytes. *)
Definition to_bytes_big (x : Z) (length : Z) : result bytes :=
  if length <? 0 then Err ValueError
  else if x <? 0 then Err OverflowError
  else if 256 ^ length <=? x then Err OverflowError
  else Ok (rev (le_digits (Z.to_nat length) x)).

(** [int.from_bytes(b, 'big')]. *)
Definition from_bytes_big (b : bytes) : Z :=
  fold_left (fun acc d => acc * 256 + byte_to_Z d) b 0.

(** [sys.maxsize], the largest [Py_ssize_t] (64-bit CPython). *)
Definition sys_maxsize : Z := 2 ^ 63 - 1.

(** [bytes(n)] for an [int] [n]: [OverflowError] when [n] does not fit in
    a [Py_ssize_t], [ValueError] when it fits and is negative, and
    otherwise [n] zero bytes. *)
Definition bytes_of_int (n : Z) : result bytes :=
  if (n <? - sys_maxsize - 1) || (sys_maxsize <? n) then Err OverflowError
  else if n <? 0 then Err ValueError
  else Ok (repeat x00 (Z.to_nat n)).

(** Where a slice bound [n] lands in a sequence of length [len]: a negative
    bound counts from the end, and every bound is clipped to [0..len]. *)
Definition slice_index (len : nat) (n : Z) : nat :=
  if n <? 0 then Z.to_nat (Z.max 0 (Z.of_nat len + n))
  else Nat.min len (Z.to_nat n).

(** [b[:n]] *)
Definition slice_to (b : bytes) (n : Z) : bytes :=
  firstn (slice_index (List.length b) n) b.

(** [b[n:]] *)
Definition slice_from (b : bytes) (n : Z) : bytes :=
  skipn (slice_index (List.length b) n) b.

(* ------------------------------------------------------------------ *)
(** ** SHA-256 (FIPS 180-4), the function behind [hashlib.sha256(m).digest()] *)

Module SHA256.

Definition w32 (x : Z) : Z := x mod 2 ^ 32.

Definition add32 (x y : Z) : Z := w32 (x + y).

Definition rotr (n x : Z) : Z :=
  Z.lor (Z.shiftr x n) (w32 (Z.shiftl x (32 - n))).

Definition not32 (x : Z) : Z := Z.lxor x 0xffffffff.

Definition Ch (x y z : Z) : Z := Z.lxor (Z.land x y) (Z.land (not32 x) z).
Definition Maj (x y z : Z) : Z :=
  Z.lxor (Z.lxor (Z.land x y) (Z.land x z)) (Z.land y z).
Definition Sigma0 (x : Z) : Z := Z.lxor (Z.lxor (rotr 2 x) (rotr 13 x)) (rotr 22 x).
Definition Sigma1 (x : Z) : Z := Z.lxor (Z.lxor (rotr 6 x) (rotr 11 x)) (rotr 25 x).
Definition sigma0 (x : Z) : Z := Z.lxor (Z.lxor (rotr 7 x) (rotr 18 x)) (Z.shiftr x 3).
Definition sigma1 (x : Z) : Z := Z.lxor (Z.lxor (rotr 17 x) (rotr 19 x)) (Z.shiftr x 10).

(** The first 64 primes. *)
Definition primes : list Z :=
  [ 2; 3; 5; 7; 11; 13; 17; 19; 23; 29; 31; 37; 41; 43; 47; 53;
    59; 61; 67; 71; 73; 79; 83; 89; 97; 101; 103; 107; 109; 113; 127; 131;
    137; 139; 149; 151; 157; 163; 167; 173; 179; 181; 191; 193; 197; 199;
    211; 223; 227; 229; 233; 239; 241; 251; 257; 263; 269; 271; 277; 281;
    283; 293; 307; 311 ].

(** Integer cube root below [2 ^ bits], one bit at a time from the top. *)
Fixpoint cbrt_bits (bits : nat) (x r : Z) : Z :=
  match bits with
  | O => r
  | S b =>
      let r' := r + 2 ^ Z.of_nat b in
      cbrt_bits b x (if r' * r' * r' <=? x then r' else r)
  end.

(** The round constants: the first 32 bits of the fractional parts of the
    cube roots of the first 64 primes. *)
Definition K : list Z :=
  Eval vm_compute in map (fun p => w32 (cbrt_bits 40 (p * 2 ^ 96) 0)) primes.

(** The eight working variables / the chaining value. *)
Record state : Type := mkState {
  ha : Z; hb : Z; hc : Z; hd : Z; he : Z; hf : Z; hg : Z; hh : Z
}.

(** The initial chaining value: the first 32 bits of the fractional parts
    of the square roots of the first 8 primes. *)
Definition iv (i : nat) : Z := w32 (Z.sqrt (nth i primes 0 * 2 ^ 64)).

Definition H0 : state :=
  Eval vm_compute in mkState (iv 0) (iv 1) (iv 2) (iv 3) (iv 4) (iv 5) (iv 6) (iv 7).

(** Padding: a 1 bit, zeros up to 56 mod 64, the bit length on 8 bytes. *)
Definition pad (m : bytes) : bytes :=
  let len := Z.of_nat (List.length m) in
  let zeros := Z.to_nat ((55 - len) mod 64) in
  m ++ x80 :: repeat x00 zeros ++ rev (le_digits 8 (8 * len)).

(** Cut a list in chunks of [n] items ([fuel] bounds the chunk count). *)
Fixpoint chunks {A : Type} (fuel n : nat) (l : list A) : list (list A) :=
  match fuel, l with
  | O, _ => []
  | _, [] => []
  | S fuel', _ => firstn n l :: chunks fuel' n (skipn n l)
  end.

Definition words (block : bytes) : list Z :=
  map from_bytes_big (chunks 16 4 block).

(** The message schedule W_0 .. W_63 of one block. *)
Definition schedule (block : bytes) : list Z :=
  fold_left
    (fun w t =>
       w ++ [ add32 (add32 (sigma1 (nth (t - 2) w 0)) (nth (t - 7) w 0))
                    (add32 (sigma0 (nth (t - 15) w 0)) (nth (t - 16) w 0)) ])
    (seq 16 48) (words block).

Definition round (s : state) (kw : Z * Z) : state :=
  let t1 := add32 (add32 (add32 (hh s) (Sigma1 (he s)))
                         (add32 (Ch (he s) (hf s) (hg s)) (fst kw)))
                  (snd kw) in
  let t2 := add32 (Sigma0 (ha s)) (Maj (ha s) (hb s) (hc s)) in
  mkState (add32 t1 t2) (ha s) (hb s) (hc s)
          (add32 (hd s) t1) (he s) (hf s) (hg s).

Definition compress (s : state) (block : bytes) : state :=
  let r := fold_left round (combine K (schedule block)) s in
  mkState (add32 (ha s) (ha r)) (add32 (hb s) (hb r))
          (add32 (hc s) (hc r)) (add32 (hd s) (hd r))
          (add32 (he s) (he r)) (add32 (hf s) (hf r))
          (add32 (hg s) (hg r)) (add32 (hh s) (hh r)).

Definition word_bytes (w : Z) : bytes := rev (le_digits 4 w).

Definition digest (m : bytes) : bytes :=
  let p := pad m in
  let s := fold_left compress (chunks (List.length p) 64 p) H0 in
  word_bytes (ha s) ++ word_bytes (hb s) ++ word_bytes (hc s) ++
  word_bytes (hd s) ++ word_bytes (he s) ++ word_bytes (hf s) ++
  word_bytes (hg s) ++ word_bytes (hh s).

End SHA256.

(* ------------------------------------------------------------------ *)
(** ** External collaborators *)

(** [nacl.public]: key pairs and the authenticated [Box].
    [box_encrypt sk pk m r] is [Box(sk, pk).encrypt(m)] when the library draws
    the 24-byte transport nonce [r]; [box_decrypt sk pk c] is
    [Box(sk, pk).decrypt(c)], which raises [CryptoError] on a forged or
    mis-keyed message. *)
Record BoxScheme : Type := mkBoxScheme {
  PrivateKey : Type;
  PublicKey : Type;
  public_key : PrivateKey -> PublicKey;
  box_encrypt : PrivateKey -> PublicKey -> bytes -> bytes -> bytes;
  box_decrypt : PrivateKey -> PublicKey -> bytes -> result bytes
}.

Arguments public_key {B} _ : rename.
Arguments box_encrypt {B} _ _ _ _ : rename.
Arguments box_decrypt {B} _ _ _ : rename.

(** What NaCl guarantees for the box: a message sealed by A for B opens,
    unchanged, with B's private key and A's public key. *)
Definition box_sound (B : BoxScheme) : Prop :=
  forall (skA skB : PrivateKey B) (m r : bytes),
    List.length r = 24%nat ->
    box_decrypt skB (public_key skA) (box_encrypt skA (public_key skB) m r)
    = Ok m.

(* ------------------------------------------------------------------ *)
(** ** The module [pre_commit_hashing] *)

(** [bytes([a ^ b for a, b in zip(result, xi)])]: [zip] stops at the shorter
    operand. *)
Definition xor_bytes (result xi : bytes) : bytes :=
  map (fun ab => byte_xor (fst ab) (snd ab)) (combine result xi).

(** [xor_all]: [x[0]] raises [IndexError] on the empty list; the loop over
    [range(1, len(x))] folds the remaining elements from the left. *)
Definition xor_all (x : list bytes) : result bytes :=
  match x with
  | [] => Err IndexError
  | x0 :: rest => Ok (fold_left xor_bytes rest x0)
  end.

Definition int_to_bytes (x : Z) : result bytes :=
  to_bytes_big x ((bit_length x + 7) / 8).

Definition bytes_to_int (x : bytes) : Z := from_bytes_big x.

Section Entropy.

(** [utilitybelt.dev_urandom_entropy], the entropy source: what a call
    with a given byte count returns. *)
Variable dev_urandom_entropy : Z -> result bytes.

Definition generate (n : Z) (nonce : Z) (forged_bytes : option bytes)
  : result (bytes * bytes) :=
  random_bytes <- match forged_bytes with
                  | None => dev_urandom_entropy n
                  | Some fb => Ok fb
                  end ;;
  enc <- int_to_bytes nonce ;;
  Ok (random_bytes, SHA256.digest (random_bytes ++ enc)).

End Entropy.

Definition verify (random_bytes : bytes) (nonce : Z) (random_hash : bytes)
  : result bool :=
  enc <- int_to_bytes nonce ;;
  Ok (bytes_eqb random_hash (SHA256.digest (random_bytes ++ enc))).

Section SecureChannel.

Variable B : BoxScheme.

(** [r] is the transport nonce that [box.encrypt] draws. *)
Definition encrypt (random_bytes : bytes) (nonce : Z)
           (private_key : PrivateKey B) (public_key : PublicKey B)
           (r : bytes) : result bytes :=
  zeros <- bytes_of_int nonce ;;
  Ok (box_encrypt private_key public_key (random_bytes ++ zeros) r).

Definition decrypt (n : Z) (encrypted : bytes)
           (private_key : PrivateKey B) (public_key : PublicKey B)
  : result (bytes * Z) :=
  decrypted <- box_decrypt private_key public_key encrypted ;;
  let random_bytes := slice_to decrypted n in
  let nonce := from_bytes_big (slice_from decrypted n) in
  Ok (random_bytes, nonce).

End SecureChannel.

Arguments encrypt {B} _ _ _ _ _.
Arguments decrypt {B} _ _ _ _.

(* ------------------------------------------------------------------ *)
(** ** Reference instances of the collaborators

    Executable stand-ins with the collaborators' interface, used to run the
    embedded code on concrete inputs. *)

(** [os.urandom] over a fixed supply of bytes. *)
Definition os_urandom (pool : nat -> byte) (n : Z) : result bytes :=
  if n <? 0 then Err ValueError
  else Ok (map pool (seq 0 (Z.to_nat n))).

(** A Diffie-Hellman box over the integers modulo a prime: the shared key is
    [pk ^ sk] (computed by square-and-multiply), the cipher XORs a SHA-256
    keystream, and the 16-byte authenticator is a keyed SHA-256 of nonce and
    ciphertext.  The layout is PyNaCl's: nonce (24) followed by
    authenticator (16) and ciphertext. *)
Module RefBox.

Definition modulus : Z := 2 ^ 61 - 1.
Definition base : Z := 3.

Definition public (sk : N) : Z := Zpow_mod base (Z.of_N sk) modulus.
Definition shared (sk : N) (pk : Z) : Z := Zpow_mod pk (Z.of_N sk) modulus.

Definition key_bytes (k : Z) : bytes := rev (le_digits 8 k).

Definition keystream (k : Z) (r : bytes) (n : nat) : bytes :=
  map (fun i => hd x00 (SHA256.digest
                          (key_bytes k ++ r ++ rev (le_digits 4 (Z.of_nat i)))))
      (seq 0 n).

Definition mac (k : Z) (r c : bytes) : bytes :=
  firstn 16 (SHA256.digest (key_bytes k ++ r ++ c)).

Definition seal (sk : N) (pk : Z) (m r : bytes) : bytes :=
  let k := shared sk pk in
  let c := xor_bytes m (keystream k r (List.length m)) in
  r ++ mac k r c ++ c.

Definition open (sk : N) (pk : Z) (e : bytes) : result bytes :=
  let k := shared sk pk in
  let r := firstn 24 e in
  let t := firstn 16 (skipn 24 e) in
  let c := skipn 40 e in
  if bytes_eqb t (mac k r c)
  then Ok (xor_bytes c (keystream k r (List.length c)))
  else Err CryptoError.

Definition scheme : BoxScheme := mkBoxScheme N Z public seal open.

(** Two key pairs and a transport nonce for the examples. *)
Definition alice : N := 1234567%N.
Definition randy : N := 7654321%N.
Definition nonce24 : bytes := map byte_of_Z (map Z.of_nat (seq 1 24)).

End RefBox.

(* ------------------------------------------------------------------ *)
(** ** Vocabulary of the statements *)

(** The XOR of the [i]-th bytes of all the strings of [x], as a number. *)
Definition column_xor (i : nat) (x : list bytes) : Z :=
  fold_right Z.lxor 0 (map (fun b => byte_to_Z (nth i b x00)) x).

(** The length of the shortest string of [x0 :: rest]. *)
Definition shortest (x0 : bytes) (rest : list bytes) : nat :=
  fold_right Nat.min (List.length x0) (map (@List.length byte) rest).

(** Two different messages with the same SHA-256 digest. *)
Definition sha256_collision (m1 m2 : bytes) : Prop :=
  m1 <> m2 /\ SHA256.digest m1 = SHA256.digest m2.

(** Two strings of [x] have different lengths. *)
Definition differing_lengths (x : list bytes) : Prop :=
  exists a b, In a x /\ In b x /\ List.length a <> List.length b.

(* ------------------------------------------------------------------ *)
(** ** The rest of the module: [bytes_to_binary] and [main] *)

(** One binary digit of [v], as a character. *)
Definition bit_char (v : Z) (i : Z) : ascii :=
  if Z.testbit v i then "1"%char else "0"%char.

(** [format(b, '08b')] for a value read from a [bytes] object: its eight
    bits, the most significant first. *)
Definition format_08b (b : byte) : string :=
  string_of_list_ascii (map (bit_char (byte_to_Z b)) [7; 6; 5; 4; 3; 2; 1; 0]).

Definition bytes_to_binary (x : bytes) : string :=
  String.concat "" (map format_08b x).

(** [str(z)] and [len(str(z))]. *)
Definition py_str (z : Z) : string := NilZero.string_of_int (Z.to_int z).

Definition decimal_length (z : Z) : Z := Z.of_nat (String.length (py_str z)).

(** [b'deadbeef' * 4] *)
Definition deadbeef4 : bytes :=
  List.concat (repeat [x64; x65; x61; x64; x62; x65; x65; x66] 4).

(** How a run of [main] ends: all lines printed, an exception (after the
    lines printed so far), or a failed [assert]. *)
Inductive outcome : Type :=
| Printed (lines : list Z)
| Raised (lines : list Z) (e : error)
| AssertionFailed.

Definition try {A : Type} (lines : list Z) (m : result A)
           (k : A -> outcome) : outcome :=
  match m with
  | Ok a => k a
  | Err e => Raised lines e
  end.

Definition assert (b : bool) (k : outcome) : outcome :=
  if b then k else AssertionFailed.

Section Main.

Variable B : BoxScheme.
Variable dev_urandom_entropy : Z -> result bytes.

(** [randy], [alice] and [bob] are the three keys that
    [PrivateKey.generate()] returns, [r_alice] and [r_bob] the transport
    nonces of the two [box.encrypt] calls. *)
Definition main (randy alice bob : PrivateKey B) (r_alice r_bob : bytes)
  : outcome :=
  let nonce := 0 in
  let number_bytes := 32 in
  try [] (generate dev_urandom_entropy number_bytes nonce None) (fun ga =>
  try [] (generate dev_urandom_entropy number_bytes nonce (Some deadbeef4))
      (fun gb =>
  let (random_bytes_alice, random_hash_alice) := ga in
  let (random_bytes_bob, random_hash_bob) := gb in
  try [] (encrypt random_bytes_alice nonce alice (public_key randy) r_alice)
      (fun encrypted_alice =>
  try [] (encrypt random_bytes_bob nonce bob (public_key randy) r_bob)
      (fun encrypted_bob =>
  try [] (decrypt number_bytes encrypted_alice randy (public_key alice))
      (fun da =>
  try [] (decrypt number_bytes encrypted_bob randy (public_key bob))
      (fun db =>
  let (decrypted_alice, nonce_alice) := da in
  let (decrypted_bob, nonce_bob) := db in
  try [] (verify decrypted_alice nonce_alice random_hash_alice) (fun ok_alice =>
  assert ok_alice (
  try [] (verify decrypted_bob nonce_bob random_hash_bob) (fun ok_bob =>
  assert ok_bob (
  let lines := [bytes_to_int decrypted_alice; bytes_to_int decrypted_bob] in
  try lines (xor_all [decrypted_alice; decrypted_bob])
      (fun final_random_number =>
  Printed (lines ++ [bytes_to_int final_random_number;
                     decimal_length (bytes_to_int final_random_number)])
  ))))))))))).

End Main.

Arguments main {B} _ _ _ _ _ _.

(** The number that a string of binary digits denotes (a character other
    than 1 counts as 0, the empty string denotes 0). *)
Fixpoint binary_value_from (acc : Z) (s : string) : Z :=
  match s with
  | EmptyString => acc
  | String c s' =>
      binary_value_from (2 * acc + (if Ascii.eqb c "1" then 1 else 0)) s'
  end.

Definition binary_value (s : string) : Z := binary_value_from 0 s.

(* ================================================================== *)
(** * Properties *)

(** ** Bytes *)

Lemma byte_to_Z_range (b : byte) : 0 <= byte_to_Z b < 256.
Proof.
  unfold byte_to_Z. pose proof (Byte.to_N_bounded b). lia.
Qed.

Lemma byte_of_to_Z (b : byte) : byte_of_Z (byte_to_Z b) = b.
Proof.
  unfold byte_of_Z. pose proof (byte_to_Z_range b) as R.
  rewrite Z.mod_small by exact R.
  unfold byte_to_Z. rewrite N2Z.id, Byte.of_to_N. reflexivity.
Qed.

Lemma byte_to_of_Z (z : Z) : byte_to_Z (byte_of_Z z) = z mod 256.
Proof.
  unfold byte_of_Z, byte_to_Z.
  pose proof (Z.mod_pos_bound z 256 ltac:(lia)) as R.
  destruct (Byte.of_N (Z.to_N (z mod 256))) as [b|] eqn:E.
  - apply Byte.to_of_N in E. rewrite E. lia.
  - apply Byte.of_N_None_iff in E. lia.
Qed.

Lemma byte_to_Z_inj (a b : byte) : byte_to_Z a = byte_to_Z b -> a = b.
Proof.
  intros E. rewrite <- (byte_of_to_Z a), <- (byte_of_to_Z b), E. reflexivity.
Qed.

Lemma lxor_below_256 (p q : Z) :
  0 <= p < 256 -> 0 <= q < 256 -> 0 <= Z.lxor p q < 256.
Proof.
  intros Hp Hq. split.
  - apply Z.lxor_nonneg. lia.
  - destruct (Z.eq_dec (Z.lxor p q) 0) as [E|NE]; [lia|].
    assert (0 < Z.lxor p q) by (pose proof (proj2 (Z.lxor_nonneg p q)); lia).
    apply (Z.log2_lt_pow2 _ 8); [assumption|].
    assert (Lp : Z.log2 p < 8).
    { destruct (Z.eq_dec p 0) as [->|]; [reflexivity|].
      apply Z.log2_lt_pow2; lia. }
    assert (Lq : Z.log2 q < 8).
    { destruct (Z.eq_dec q 0) as [->|]; [reflexivity|].
      apply Z.log2_lt_pow2; lia. }
    pose proof (Z.log2_lxor p q ltac:(lia) ltac:(lia)). lia.
Qed.

Lemma byte_xor_to_Z (a b : byte) :
  byte_to_Z (byte_xor a b) = Z.lxor (byte_to_Z a) (byte_to_Z b).
Proof.
  unfold byte_xor. rewrite byte_to_of_Z.
  apply Z.mod_small, lxor_below_256; apply byte_to_Z_range.
Qed.

Lemma byte_xor_comm (a b : byte) : byte_xor a b = byte_xor b a.
Proof.
  unfold byte_xor. rewrite Z.lxor_comm. reflexivity.
Qed.

Lemma byte_xor_cancel (a b : byte) : byte_xor (byte_xor a b) b = a.
Proof.
  apply byte_to_Z_inj. rewrite !byte_xor_to_Z.
  rewrite Z.lxor_assoc, Z.lxor_nilpotent, Z.lxor_0_r. reflexivity.
Qed.

Lemma bytes_eqb_refl (a : bytes) : bytes_eqb a a = true.
Proof.
  induction a as [|p a IH]; simpl; [reflexivity|].
  rewrite IH, (Byte.byte_dec_lb eq_refl). reflexivity.
Qed.

Lemma bytes_eqb_eq (a b : bytes) : bytes_eqb a b = true <-> a = b.
Proof.
  split.
  - revert b. induction a as [|p a IH]; intros [|q b] E; simpl in E;
      try discriminate; [reflexivity|].
    apply andb_true_iff in E. destruct E as [E1 E2].
    apply Byte.byte_dec_bl in E1. apply IH in E2. congruence.
  - intros ->. apply bytes_eqb_refl.
Qed.

(** ** [zip]-and-XOR of two strings *)

Lemma xor_bytes_length (a b : bytes) :
  List.length (xor_bytes a b) = Nat.min (List.length a) (List.length b).
Proof.
  unfold xor_bytes. rewrite length_map, length_combine. reflexivity.
Qed.

Lemma xor_bytes_nth (a b : bytes) (i : nat) :
  (i < List.length a)%nat -> (i < List.length b)%nat ->
  nth i (xor_bytes a b) x00 = byte_xor (nth i a x00) (nth i b x00).
Proof.
  revert b i. induction a as [|p a IH]; intros [|q b] i Ha Hb; simpl in *;
    try lia.
  destruct i as [|i]; [reflexivity|].
  apply IH; lia.
Qed.

Lemma xor_bytes_comm (a b : bytes) : xor_bytes a b = xor_bytes b a.
Proof.
  revert b. induction a as [|p a IH]; intros [|q b]; try reflexivity.
  unfold xor_bytes in *. simpl. rewrite byte_xor_comm. f_equal. apply IH.
Qed.

Lemma xor_bytes_cancel (m ks : bytes) :
  List.length ks = List.length m -> xor_bytes (xor_bytes m ks) ks = m.
Proof.
  revert ks. induction m as [|p m IH]; intros [|q ks] E; simpl in E;
    try discriminate; [reflexivity|].
  unfold xor_bytes in *. simpl. rewrite byte_xor_cancel. f_equal.
  apply IH. lia.
Qed.

(** ** [xor_all] *)

Lemma fold_min_absorb (l : list nat) (a b : nat) :
  fold_right Nat.min (Nat.min a b) l = Nat.min b (fold_right Nat.min a l).
Proof.
  induction l as [|c l IH]; simpl; [lia|]. rewrite IH. lia.
Qed.

Lemma shortest_cons (x0 y : bytes) (rest : list bytes) :
  shortest (xor_bytes x0 y) rest = shortest x0 (y :: rest).
Proof.
  unfold shortest. simpl. rewrite xor_bytes_length. apply fold_min_absorb.
Qed.

Lemma shortest_le_head (x0 : bytes) (rest : list bytes) :
  (shortest x0 rest <= List.length x0)%nat.
Proof.
  unfold shortest. induction rest as [|y rest IH]; simpl; lia.
Qed.

Lemma shortest_le_each (x0 : bytes) (rest : list bytes) (y : bytes) :
  In y rest -> (shortest x0 rest <= List.length y)%nat.
Proof.
  unfold shortest. induction rest as [|z rest IH]; simpl; [tauto|].
  intros [->|H]; [lia|]. specialize (IH H). lia.
Qed.

Lemma shortest_uniform (x0 : bytes) (rest : list bytes) (L : nat) :
  (forall b, In b (x0 :: rest) -> List.length b = L) -> shortest x0 rest = L.
Proof.
  unfold shortest. induction rest as [|y rest IH]; simpl; intros H.
  - apply H. left. reflexivity.
  - rewrite IH.
    + rewrite (H y) by (right; left; reflexivity). lia.
    + intros b [<-|Hb]; apply H; [left|right; right]; trivial.
Qed.

(** The loop of [xor_all]: the result is as long as the shortest operand. *)
Lemma xor_loop_length (rest : list bytes) (x0 : bytes) :
  List.length (fold_left xor_bytes rest x0) = shortest x0 rest.
Proof.
  revert x0. induction rest as [|y rest IH]; intros x0; simpl.
  - reflexivity.
  - rewrite IH. apply shortest_cons.
Qed.

(** The loop of [xor_all]: below that length, byte [i] of the result is the
    XOR of column [i]. *)
Lemma xor_loop_nth (rest : list bytes) (x0 : bytes) (i : nat) :
  (i < shortest x0 rest)%nat ->
  byte_to_Z (nth i (fold_left xor_bytes rest x0) x00)
  = column_xor i (x0 :: rest).
Proof.
  revert x0. induction rest as [|y rest IH]; intros x0 Hi.
  - unfold column_xor. simpl. rewrite Z.lxor_0_r. reflexivity.
  - simpl fold_left. rewrite IH by (rewrite shortest_cons; exact Hi).
    pose proof (shortest_le_head x0 (y :: rest)) as Hx.
    pose proof (shortest_le_each x0 (y :: rest) y (or_introl eq_refl)) as Hy.
    unfold column_xor. simpl.
    rewrite xor_bytes_nth by lia. rewrite byte_xor_to_Z.
    apply Z.lxor_assoc.
Qed.

(** C5. [xor_all] applied to the empty list fails (Python raises
    [IndexError] at [x[0]]); it never returns a value for the empty input. *)
Theorem xor_all_empty_fails :
  xor_all [] = Err IndexError /\ forall r : bytes, xor_all [] <> Ok r.
Proof.
  split; [reflexivity|]. intros r H. discriminate H.
Qed.

(** C7. On a non-empty list of strings that all have length [L], [xor_all]
    returns a string of length [L] whose [i]-th byte is the bitwise XOR of
    the [i]-th bytes of all the inputs. *)
Theorem xor_all_equal_lengths (x : list bytes) (L : nat) :
  x <> [] ->
  (forall b, In b x -> List.length b = L) ->
  exists r,
    xor_all x = Ok r /\
    List.length r = L /\
    forall i, (i < L)%nat -> byte_to_Z (nth i r x00) = column_xor i x.
Proof.
  intros Hne Hlen. destruct x as [|x0 rest]; [contradiction|].
  exists (fold_left xor_bytes rest x0).
  pose proof (shortest_uniform x0 rest L Hlen) as HL.
  split; [reflexivity|]. split.
  - rewrite xor_loop_length. exact HL.
  - intros i Hi. apply xor_loop_nth. lia.
Qed.

Lemma xor_all_equal_lengths_witness :
  [[x0f; x01]; [xf0; x01]; [x33; x02]] <> [] /\
  (forall b, In b [[x0f; x01]; [xf0; x01]; [x33; x02]] ->
             List.length b = 2%nat) /\
  exists r,
    xor_all [[x0f; x01]; [xf0; x01]; [x33; x02]] = Ok r /\
    List.length r = 2%nat /\
    forall i, (i < 2)%nat ->
      byte_to_Z (nth i r x00)
      = column_xor i [[x0f; x01]; [xf0; x01]; [x33; x02]].
Proof.
  assert (H1 : [[x0f; x01]; [xf0; x01]; [x33; x02]] <> []) by discriminate.
  assert (H2 : forall b, In b [[x0f; x01]; [xf0; x01]; [x33; x02]] ->
                         List.length b = 2%nat).
  { simpl. intros b [<-|[<-|[<-|[]]]]; reflexivity. }
  split; [exact H1|]. split; [exact H2|].
  exact (xor_all_equal_lengths _ 2%nat H1 H2).
Defined.

(** C4, as the code has it. [xor_all] has no length check: on every
    non-empty list, whatever the lengths of its strings, it returns a value,
    as long as the shortest input, whose [i]-th byte is the XOR of the
    [i]-th bytes of all the inputs ([zip] drops the excess bytes). *)
Theorem xor_all_truncates (x0 : bytes) (rest : list bytes) :
  exists r,
    xor_all (x0 :: rest) = Ok r /\
    List.length r = shortest x0 rest /\
    forall i, (i < List.length r)%nat ->
      byte_to_Z (nth i r x00) = column_xor i (x0 :: rest).
Proof.
  exists (fold_left xor_bytes rest x0).
  split; [reflexivity|]. split.
  - apply xor_loop_length.
  - intros i Hi. rewrite xor_loop_length in Hi. apply xor_loop_nth. exact Hi.
Qed.

(** C4, as stated, fails: a one-byte string and a two-byte string are XORed
    into a one-byte result instead of being rejected. *)
Lemma xor_all_length_mismatch_accepted :
  differing_lengths [[x01]; [x02; x03]] /\
  xor_all [[x01]; [x02; x03]] = Ok [x03].
Proof.
  split; [|reflexivity].
  exists [x01], [x02; x03]. simpl. repeat split; auto.
Qed.

(** C9. [xor_all] is commutative on two strings of equal length. *)
Theorem xor_all_pair_comm (a b : bytes) :
  List.length a = List.length b -> xor_all [a; b] = xor_all [b; a].
Proof.
  intros _. simpl. rewrite xor_bytes_comm. reflexivity.
Qed.

Lemma xor_all_pair_comm_witness :
  List.length [x11; x22] = List.length [xff; x0f] /\
  xor_all [[x11; x22]; [xff; x0f]] = xor_all [[xff; x0f]; [x11; x22]].
Proof.
  split; [reflexivity|]. apply xor_all_pair_comm. reflexivity.
Defined.

(** ** The nonce encoding *)

Lemma le_digits_length (k : nat) (x : Z) : List.length (le_digits k x) = k.
Proof.
  revert x. induction k as [|k IH]; intros x; simpl; [|rewrite IH];
    reflexivity.
Qed.

Lemma from_bytes_big_snoc (l : bytes) (d : byte) :
  from_bytes_big (l ++ [d]) = from_bytes_big l * 256 + byte_to_Z d.
Proof.
  unfold from_bytes_big. rewrite fold_left_app. reflexivity.
Qed.

(** Reading back [k] big-endian digits of [x] gives [x] modulo [256 ^ k]. *)
Lemma from_bytes_big_digits (k : nat) (x : Z) :
  from_bytes_big (rev (le_digits k x)) = x mod 256 ^ Z.of_nat k.
Proof.
  revert x. induction k as [|k IH]; intros x.
  - simpl. rewrite Z.mod_1_r. reflexivity.
  - simpl le_digits. simpl rev. rewrite from_bytes_big_snoc, IH, byte_to_of_Z.
    rewrite Z.mod_mod by lia.
    rewrite Nat2Z.inj_succ, Z.pow_succ_r by lia.
    rewrite Z.rem_mul_r by lia. lia.
Qed.

Lemma bit_length_fits (x : Z) :
  0 <= x -> x < 256 ^ ((bit_length x + 7) / 8).
Proof.
  intros Hx. unfold bit_length.
  destruct (Z.eqb_spec x 0) as [->|Hnz]; [reflexivity|].
  rewrite Z.abs_eq by exact Hx.
  pose proof (Z.log2_spec x ltac:(lia)) as [_ Hlt].
  pose proof (Z.log2_nonneg x) as Hl.
  set (bl := Z.log2 x + 1) in *.
  replace (Z.succ (Z.log2 x)) with bl in Hlt by (unfold bl; lia).
  set (k := (bl + 7) / 8).
  assert (Hk : bl <= 8 * k).
  { unfold k. pose proof (Z.div_mod (bl + 7) 8 ltac:(lia)).
    pose proof (Z.mod_pos_bound (bl + 7) 8 ltac:(lia)). lia. }
  assert (Hk0 : 0 <= k) by (unfold k; apply Z.div_pos; lia).
  change 256 with (2 ^ 8). rewrite <- Z.pow_mul_r by lia.
  eapply Z.lt_le_trans; [exact Hlt|].
  apply Z.pow_le_mono_r; lia.
Qed.

Lemma encoded_length_nonneg (x : Z) : 0 <= (bit_length x + 7) / 8.
Proof.
  apply Z.div_pos; [|lia]. unfold bit_length.
  destruct (x =? 0); [lia|]. pose proof (Z.log2_nonneg (Z.abs x)). lia.
Qed.

(** On a non-negative integer [int_to_bytes] returns its minimal big-endian
    digits. *)
Lemma int_to_bytes_nonneg (x : Z) :
  0 <= x ->
  int_to_bytes x
  = Ok (rev (le_digits (Z.to_nat ((bit_length x + 7) / 8)) x)).
Proof.
  intros Hx. unfold int_to_bytes, to_bytes_big.
  pose proof (encoded_length_nonneg x) as Hk.
  pose proof (bit_length_fits x Hx) as Hfit.
  destruct (Z.ltb_spec ((bit_length x + 7) / 8) 0); [lia|].
  destruct (Z.ltb_spec x 0); [lia|].
  destruct (Z.leb_spec (256 ^ ((bit_length x + 7) / 8)) x); [lia|].
  reflexivity.
Qed.

Lemma int_to_bytes_negative (x : Z) :
  x < 0 -> int_to_bytes x = Err OverflowError.
Proof.
  intros Hx. unfold int_to_bytes, to_bytes_big.
  pose proof (encoded_length_nonneg x) as Hk.
  destruct (Z.ltb_spec ((bit_length x + 7) / 8) 0); [lia|].
  destruct (Z.ltb_spec x 0); [reflexivity|lia].
Qed.

(** [bytes_to_int] inverts [int_to_bytes]. *)
Lemma bytes_to_int_to_bytes (x : Z) (e : bytes) :
  int_to_bytes x = Ok e -> bytes_to_int e = x.
Proof.
  intros He. destruct (Z.lt_ge_cases x 0) as [Hneg|Hx].
  - rewrite int_to_bytes_negative in He by exact Hneg. discriminate.
  - rewrite int_to_bytes_nonneg in He by exact Hx. injection He as <-.
    unfold bytes_to_int. rewrite from_bytes_big_digits.
    pose proof (bit_length_fits x Hx) as Hfit.
    rewrite Z2Nat.id by apply encoded_length_nonneg.
    apply Z.mod_small. lia.
Qed.

Lemma app_same_length_inj (s1 s2 e1 e2 : bytes) :
  List.length s1 = List.length s2 ->
  s1 ++ e1 = s2 ++ e2 -> s1 = s2 /\ e1 = e2.
Proof.
  revert s2. induction s1 as [|p s1 IH]; intros [|q s2] Hl E; simpl in *;
    try discriminate.
  - split; [reflexivity|exact E].
  - injection E as -> E. destruct (IH s2 ltac:(lia) E) as [-> ->].
    split; reflexivity.
Qed.

(** C2, as the code has it.  [int_to_bytes] is defined and injective on the
    non-negative integers, and for two secrets of the same length distinct
    (secret, nonce) pairs have distinct hash preimages; so [verify] accepts
    one hash for both pairs only if the two preimages are a SHA-256
    collision. *)
Theorem preimage_injective_at_equal_length (s1 s2 : bytes) (n1 n2 : Z) :
  0 <= n1 -> 0 <= n2 ->
  List.length s1 = List.length s2 ->
  exists e1 e2,
    int_to_bytes n1 = Ok e1 /\
    int_to_bytes n2 = Ok e2 /\
    (n1 <> n2 -> e1 <> e2) /\
    ((s1, n1) <> (s2, n2) -> s1 ++ e1 <> s2 ++ e2) /\
    (forall h,
        (s1, n1) <> (s2, n2) ->
        verify s1 n1 h = Ok true ->
        verify s2 n2 h = Ok true ->
        sha256_collision (s1 ++ e1) (s2 ++ e2)).
Proof.
  intros H1 H2 Hl.
  pose proof (int_to_bytes_nonneg n1 H1) as E1.
  pose proof (int_to_bytes_nonneg n2 H2) as E2.
  eexists. eexists. split; [exact E1|]. split; [exact E2|].
  assert (Hpre : (s1, n1) <> (s2, n2) ->
                 s1 ++ rev (le_digits (Z.to_nat ((bit_length n1 + 7) / 8)) n1)
                 <> s2 ++ rev (le_digits (Z.to_nat ((bit_length n2 + 7) / 8)) n2)).
  { intros Hp He. apply Hp.
    destruct (app_same_length_inj _ _ _ _ Hl He) as [-> Hee].
    rewrite <- (bytes_to_int_to_bytes _ _ E1),
            <- (bytes_to_int_to_bytes _ _ E2), Hee. reflexivity. }
  split; [|split; [exact Hpre|]].
  - intros Hn He. apply Hn.
    rewrite <- (bytes_to_int_to_bytes _ _ E1),
            <- (bytes_to_int_to_bytes _ _ E2), He. reflexivity.
  - intros h Hp V1 V2. split; [apply Hpre, Hp|].
    unfold verify in V1, V2. rewrite E1 in V1. rewrite E2 in V2.
    cbn [bind] in V1, V2. injection V1 as V1. injection V2 as V2.
    apply bytes_eqb_eq in V1. apply bytes_eqb_eq in V2.
    rewrite <- V1. exact V2.
Qed.

Lemma preimage_injective_at_equal_length_witness :
  0 <= 258 /\ 0 <= 1 /\ List.length [xaa] = List.length [xbb] /\
  exists e1 e2,
    int_to_bytes 258 = Ok e1 /\
    int_to_bytes 1 = Ok e2 /\
    (258 <> 1 -> e1 <> e2) /\
    (([xaa], 258) <> ([xbb], 1) -> [xaa] ++ e1 <> [xbb] ++ e2) /\
    (forall h,
        ([xaa], 258) <> ([xbb], 1) ->
        verify [xaa] 258 h = Ok true ->
        verify [xbb] 1 h = Ok true ->
        sha256_collision ([xaa] ++ e1) ([xbb] ++ e2)).
Proof.
  split; [lia|]. split; [lia|]. split; [reflexivity|].
  apply preimage_injective_at_equal_length; [lia|lia|reflexivity].
Defined.

(** C2, as stated, fails: the secret [01] with nonce 0 and the empty secret
    with nonce 1 are distinct pairs with the same preimage [01], and
    [verify] accepts one and the same hash for both. *)
Lemma preimage_collision_across_lengths :
  ([x01], 0) <> ([], 1) /\
  int_to_bytes 0 = Ok [] /\
  int_to_bytes 1 = Ok [x01] /\
  [x01] ++ [] = [] ++ [x01] /\
  verify [x01] 0 (SHA256.digest [x01]) = Ok true /\
  verify [] 1 (SHA256.digest [x01]) = Ok true.
Proof.
  split; [discriminate|].
  do 4 (split; [vm_compute; reflexivity|]).
  vm_compute; reflexivity.
Qed.

(** ** SHA-256 test vectors (FIPS 180-4 / NIST examples) *)

Example sha256_constants :
  nth 0 SHA256.K 0 = 0x428a2f98 /\ nth 63 SHA256.K 0 = 0xc67178f2 /\
  SHA256.ha SHA256.H0 = 0x6a09e667 /\ SHA256.hh SHA256.H0 = 0x5be0cd19.
Proof. repeat split. Qed.

Example sha256_empty :
  SHA256.digest []
  = [xe3; xb0; xc4; x42; x98; xfc; x1c; x14; x9a; xfb; xf4; xc8; x99; x6f;
    xb9; x24; x27; xae; x41; xe4; x64; x9b; x93; x4c; xa4; x95; x99; x1b;
    x78; x52; xb8; x55].
Proof. vm_compute. reflexivity. Qed.

Example sha256_abc :
  SHA256.digest [x61; x62; x63]
  = [xba; x78; x16; xbf; x8f; x01; xcf; xea; x41; x41; x40; xde; x5d; xae;
    x22; x23; xb0; x03; x61; xa3; x96; x17; x7a; x9c; xb4; x10; xff; x61;
    xf2; x00; x15; xad].
Proof. vm_compute. reflexivity. Qed.

(** A message of 56 bytes, whose padding spills into a second block. *)
Example sha256_two_blocks :
  SHA256.digest
    [x61; x62; x63; x64; x62; x63; x64; x65; x63; x64; x65; x66; x64; x65;
    x66; x67; x65; x66; x67; x68; x66; x67; x68; x69; x67; x68; x69; x6a;
    x68; x69; x6a; x6b; x69; x6a; x6b; x6c; x6a; x6b; x6c; x6d; x6b; x6c;
    x6d; x6e; x6c; x6d; x6e; x6f; x6d; x6e; x6f; x70; x6e; x6f; x70; x71]
  = [x24; x8d; x6a; x61; xd2; x06; x38; xb8; xe5; xc0; x26; x93; x0c; x3e;
    x60; x39; xa3; x3c; xe4; x59; x64; xff; x21; x67; xf6; xec; xed; xd4;
    x19; xdb; x06; xc1].
Proof. vm_compute. reflexivity. Qed.

Lemma sha256_length (m : bytes) : List.length (SHA256.digest m) = 32%nat.
Proof.
  unfold SHA256.digest, SHA256.word_bytes.
  rewrite !length_app, !length_rev, !le_digits_length. reflexivity.
Qed.

(** ** The commitment engine: [generate] and [verify] *)

(** C3. Whatever secret [generate] returns for a non-negative nonce - the
    forged bytes, or else the bytes drawn from the entropy source - it
    returns it with a hash that [verify] accepts for that secret and nonce. *)
Theorem verify_accepts_generated
        (urandom : Z -> result bytes) (len n : Z)
        (fb : option bytes) (s : bytes) :
  0 <= n ->
  fb = Some s \/ (fb = None /\ urandom len = Ok s) ->
  exists h, generate urandom len n fb = Ok (s, h) /\ verify s n h = Ok true.
Proof.
  intros Hn Hs.
  exists (SHA256.digest (s ++ rev (le_digits (Z.to_nat ((bit_length n + 7) / 8)) n))).
  unfold generate, verify. rewrite (int_to_bytes_nonneg n Hn).
  split.
  - destruct Hs as [->|[-> ->]]; reflexivity.
  - cbn [bind]. rewrite bytes_eqb_refl. reflexivity.
Qed.

Lemma verify_accepts_generated_witness :
  0 <= 300 /\
  (Some [xde; xad; xbe; xef] = Some [xde; xad; xbe; xef] \/
   (Some [xde; xad; xbe; xef] = None /\
    os_urandom (fun _ => x00) 4 = Ok [xde; xad; xbe; xef])) /\
  exists h,
    generate (os_urandom (fun _ => x00)) 4 300 (Some [xde; xad; xbe; xef])
    = Ok ([xde; xad; xbe; xef], h) /\
    verify [xde; xad; xbe; xef] 300 h = Ok true.
Proof.
  split; [lia|]. split; [left; reflexivity|].
  apply verify_accepts_generated; [lia|left; reflexivity].
Defined.

(** C6, as the code has it.  [generate] does not look at the secret length:
    with length 0 and a non-negative nonce it returns a pair - the forged
    bytes when they are given, otherwise what the entropy source returns
    for 0 bytes - hashed together with the encoded nonce. *)
Theorem generate_accepts_zero_length
        (urandom : Z -> result bytes) (nonce : Z)
        (fb : option bytes) (s : bytes) :
  0 <= nonce ->
  fb = Some s \/ (fb = None /\ urandom 0 = Ok s) ->
  exists e,
    int_to_bytes nonce = Ok e /\
    generate urandom 0 nonce fb = Ok (s, SHA256.digest (s ++ e)).
Proof.
  intros Hn Hs. eexists. split; [apply (int_to_bytes_nonneg nonce Hn)|].
  unfold generate. rewrite (int_to_bytes_nonneg nonce Hn).
  destruct Hs as [->|[-> ->]]; reflexivity.
Qed.

Lemma generate_accepts_zero_length_witness :
  0 <= 5 /\
  ((@None bytes) = Some [] \/
   ((@None bytes) = None /\ os_urandom (fun _ => x00) 0 = Ok [])) /\
  exists e,
    int_to_bytes 5 = Ok e /\
    generate (os_urandom (fun _ => x00)) 0 5 None
    = Ok ([], SHA256.digest ([] ++ e)).
Proof.
  split; [lia|]. split; [right; split; reflexivity|].
  apply generate_accepts_zero_length; [lia|right; split; reflexivity].
Defined.

(** C6, as stated, fails: with secret length 0 [generate] returns a pair,
    both when the secret is drawn and when it is forged. *)
Lemma generate_zero_length_returns :
  generate (os_urandom (fun _ => x00)) 0 0 None
  = Ok ([], SHA256.digest []) /\
  generate (os_urandom (fun _ => x00)) 0 0 (Some [xde; xad])
  = Ok ([xde; xad], SHA256.digest [xde; xad]).
Proof.
  split; vm_compute; reflexivity.
Qed.

(** C10. [int_to_bytes 0] is the empty string, so with nonce 0 the hash
    that [generate] returns is the SHA-256 digest of the secret alone, and
    [verify] accepts exactly that digest. *)
Theorem nonce_zero_hashes_secret_alone
        (urandom : Z -> result bytes) (len : Z)
        (fb : option bytes) (s h : bytes) :
  fb = Some s \/ (fb = None /\ urandom len = Ok s) ->
  int_to_bytes 0 = Ok [] /\
  generate urandom len 0 fb = Ok (s, SHA256.digest s) /\
  (verify s 0 h = Ok true <-> h = SHA256.digest s).
Proof.
  intros Hs. split; [reflexivity|]. split.
  - unfold generate. change (int_to_bytes 0) with (@Ok bytes []).
    destruct Hs as [->|[-> ->]]; cbn [bind]; rewrite app_nil_r; reflexivity.
  - unfold verify. change (int_to_bytes 0) with (@Ok bytes []).
    cbn [bind]. rewrite app_nil_r. rewrite <- bytes_eqb_eq.
    split; [intros H; injection H as H; exact H|intros ->; reflexivity].
Qed.

Lemma nonce_zero_hashes_secret_alone_witness :
  (Some [x61; x62; x63] = Some [x61; x62; x63] \/
   (Some [x61; x62; x63] = None /\
    os_urandom (fun _ => x00) 32 = Ok [x61; x62; x63])) /\
  int_to_bytes 0 = Ok [] /\
  generate (os_urandom (fun _ => x00)) 32 0 (Some [x61; x62; x63])
  = Ok ([x61; x62; x63], SHA256.digest [x61; x62; x63]) /\
  (verify [x61; x62; x63] 0 (SHA256.digest [x61; x62; x63]) = Ok true <->
   SHA256.digest [x61; x62; x63] = SHA256.digest [x61; x62; x63]).
Proof.
  split; [left; reflexivity|].
  apply nonce_zero_hashes_secret_alone. left; reflexivity.
Defined.

(** ** Slices and zero strings *)

Lemma slice_index_nonneg (len : nat) (n : Z) :
  0 <= n -> slice_index len n = Nat.min len (Z.to_nat n).
Proof.
  intros Hn. unfold slice_index. destruct (Z.ltb_spec n 0); [lia|reflexivity].
Qed.

Lemma slice_to_prefix (s z : bytes) :
  slice_to (s ++ z) (Z.of_nat (List.length s)) = s.
Proof.
  unfold slice_to. rewrite slice_index_nonneg by lia.
  rewrite Nat2Z.id, length_app, Nat.min_r by lia.
  rewrite firstn_app, firstn_all, Nat.sub_diag. apply app_nil_r.
Qed.

Lemma slice_from_prefix (s z : bytes) :
  slice_from (s ++ z) (Z.of_nat (List.length s)) = z.
Proof.
  unfold slice_from. rewrite slice_index_nonneg by lia.
  rewrite Nat2Z.id, length_app, Nat.min_r by lia.
  rewrite skipn_app, skipn_all, Nat.sub_diag. reflexivity.
Qed.

Lemma slice_past_end (p : bytes) (n : Z) :
  Z.of_nat (List.length p) <= n -> slice_to p n = p /\ slice_from p n = [].
Proof.
  intros Hn. unfold slice_to, slice_from.
  rewrite slice_index_nonneg by lia. rewrite Nat.min_l by lia.
  split; [apply firstn_all|apply skipn_all].
Qed.

Lemma slice_inside (p : bytes) (n : Z) :
  0 <= n <= Z.of_nat (List.length p) ->
  slice_to p n = firstn (Z.to_nat n) p /\
  slice_from p n = skipn (Z.to_nat n) p.
Proof.
  intros Hn. unfold slice_to, slice_from.
  rewrite slice_index_nonneg by lia. rewrite Nat.min_r by lia.
  split; reflexivity.
Qed.

Lemma from_bytes_big_zeros (k : nat) : from_bytes_big (repeat x00 k) = 0.
Proof.
  unfold from_bytes_big.
  induction k as [|k IH]; [reflexivity|]. simpl. exact IH.
Qed.

(** ** The secure channel: [encrypt] and [decrypt] *)

Lemma bytes_of_int_ok (n : Z) (z : bytes) :
  bytes_of_int n = Ok z ->
  0 <= n <= sys_maxsize /\ z = repeat x00 (Z.to_nat n).
Proof.
  unfold bytes_of_int. intros H.
  destruct (Z.ltb_spec n (- sys_maxsize - 1));
    destruct (Z.ltb_spec sys_maxsize n); cbn [orb] in H;
    try discriminate H.
  destruct (Z.ltb_spec n 0); [discriminate H|].
  injection H as <-. split; [lia|reflexivity].
Qed.

(** What the round trip gives in general.  [encrypt] seals the secret
    followed by [bytes(nonce)], which is [nonce] zero bytes and not an
    encoding of the nonce; so whenever [encrypt] returns, [decrypt] over a
    sound box gives back the secret with the nonce 0. *)
Lemma decrypt_encrypt_returns_nonce_zero
      (B : BoxScheme) (skA skB : PrivateKey B)
      (secret : bytes) (nonce : Z) (r c : bytes) :
  box_sound B ->
  List.length r = 24%nat ->
  encrypt secret nonce skA (public_key skB) r = Ok c ->
  decrypt (Z.of_nat (List.length secret)) c skB (public_key skA)
  = Ok (secret, 0).
Proof.
  intros Hbox Hr He. unfold encrypt in He.
  destruct (bytes_of_int nonce) as [z|e] eqn:Ez; [|discriminate He].
  cbn [bind] in He. injection He as <-.
  destruct (bytes_of_int_ok nonce z Ez) as [_ ->].
  unfold decrypt. rewrite (Hbox skA skB _ r Hr). cbn [bind].
  rewrite slice_to_prefix, slice_from_prefix, from_bytes_big_zeros.
  reflexivity.
Qed.

(** C8, as the code has it.  [decrypt] has no length check: whenever the box
    opens the message it returns a pair, for every expected length [n].  A
    plaintext not longer than [n] comes back whole with the nonce 0;
    otherwise it is cut at [n]. *)
Theorem decrypt_has_no_length_check
        (B : BoxScheme) (n : Z) (c : bytes)
        (sk : PrivateKey B) (pk : PublicKey B) (p : bytes) :
  box_decrypt sk pk c = Ok p ->
  exists s k,
    decrypt n c sk pk = Ok (s, k) /\
    (Z.of_nat (List.length p) <= n -> s = p /\ k = 0) /\
    (0 <= n <= Z.of_nat (List.length p) ->
     s = firstn (Z.to_nat n) p /\
     k = from_bytes_big (skipn (Z.to_nat n) p)).
Proof.
  intros Hp. unfold decrypt. rewrite Hp. cbn [bind].
  eexists. eexists. split; [reflexivity|]. split.
  - intros Hn. destruct (slice_past_end p n Hn) as [-> ->].
    split; reflexivity.
  - intros Hn. destruct (slice_inside p n Hn) as [-> ->].
    split; reflexivity.
Qed.

(** [decrypt] fails exactly when the box does, with the box's error. *)
Lemma decrypt_fails_only_in_box
      (B : BoxScheme) (n : Z) (c : bytes)
      (sk : PrivateKey B) (pk : PublicKey B) (e : error) :
  decrypt n c sk pk = Err e <-> box_decrypt sk pk c = Err e.
Proof.
  unfold decrypt. destruct (box_decrypt sk pk c) as [p|e']; cbn [bind].
  - split; discriminate.
  - split; intros H; injection H as ->; reflexivity.
Qed.

(** ** The reference box is sound *)

Lemma firstn_exact {A : Type} (n : nat) (l l' : list A) :
  List.length l = n -> firstn n (l ++ l') = l.
Proof.
  intros <-. rewrite firstn_app, firstn_all, Nat.sub_diag. apply app_nil_r.
Qed.

Lemma skipn_exact {A : Type} (n : nat) (l l' : list A) :
  List.length l = n -> skipn n (l ++ l') = l'.
Proof.
  intros <-. rewrite skipn_app, skipn_all, Nat.sub_diag. reflexivity.
Qed.

Lemma ref_shared_comm (a b : N) :
  RefBox.shared b (RefBox.public a) = RefBox.shared a (RefBox.public b).
Proof.
  unfold RefBox.shared, RefBox.public.
  assert (Hm : 0 < RefBox.modulus) by reflexivity.
  rewrite !Zpow_mod_correct by lia.
  rewrite <- !Zpower_mod by exact Hm.
  rewrite <- !Z.pow_mul_r by lia.
  rewrite Z.mul_comm. reflexivity.
Qed.

Lemma ref_mac_length (k : Z) (r c : bytes) :
  List.length (RefBox.mac k r c) = 16%nat.
Proof.
  unfold RefBox.mac. rewrite length_firstn, sha256_length. reflexivity.
Qed.

Lemma ref_keystream_length (k : Z) (r : bytes) (n : nat) :
  List.length (RefBox.keystream k r n) = n.
Proof.
  unfold RefBox.keystream. rewrite length_map. apply length_seq.
Qed.

Lemma ref_box_sound : box_sound RefBox.scheme.
Proof.
  intros skA skB m r Hr.
  change (RefBox.open skB (RefBox.public skA)
            (RefBox.seal skA (RefBox.public skB) m r) = Ok m).
  unfold RefBox.open, RefBox.seal. cbv zeta.
  rewrite (ref_shared_comm skA skB).
  set (k := RefBox.shared skA (RefBox.public skB)).
  set (c := xor_bytes m (RefBox.keystream k r (List.length m))).
  assert (Hc : List.length c = List.length m).
  { unfold c. rewrite xor_bytes_length, ref_keystream_length. lia. }
  rewrite (firstn_exact 24 r _ Hr), (skipn_exact 24 r _ Hr).
  rewrite (firstn_exact 16 _ c (ref_mac_length k r c)).
  rewrite app_assoc, (skipn_exact 40 (r ++ RefBox.mac k r c) c)
    by (rewrite length_app, ref_mac_length, Hr; reflexivity).
  rewrite bytes_eqb_refl, Hc. unfold c.
  rewrite xor_bytes_cancel by apply ref_keystream_length.
  reflexivity.
Qed.

Example decrypt_encrypt_at_nonce_three :
  decrypt (B := RefBox.scheme) 1
          (RefBox.seal RefBox.alice (RefBox.public RefBox.randy)
                       [x2a; x00; x00; x00] RefBox.nonce24)
          RefBox.randy (RefBox.public RefBox.alice)
  = Ok ([x2a], 0).
Proof.
  apply (decrypt_encrypt_returns_nonce_zero
           RefBox.scheme RefBox.alice RefBox.randy [x2a] 3 RefBox.nonce24);
    [exact ref_box_sound|reflexivity|reflexivity].
Qed.

(** C1, at the failing input.  The one-byte secret [2a] is sent with the
    nonce 1: [encrypt] returns a ciphertext whose plaintext is [2a 00], and
    [decrypt] with the secret length 1 returns the secret with the nonce 0,
    not the pair (secret, 1) of the round trip. *)
Lemma encrypt_decrypt_drops_nonce :
  exists c,
    encrypt (B := RefBox.scheme) [x2a] 1
            RefBox.alice (RefBox.public RefBox.randy) RefBox.nonce24 = Ok c /\
    box_decrypt (B := RefBox.scheme) RefBox.randy (RefBox.public RefBox.alice) c
    = Ok [x2a; x00] /\
    decrypt (B := RefBox.scheme) 1 c RefBox.randy (RefBox.public RefBox.alice)
    = Ok ([x2a], 0) /\
    ([x2a], 0) <> ([x2a], 1).
Proof.
  eexists. split; [vm_compute; reflexivity|].
  split; [vm_compute; reflexivity|].
  split; [vm_compute; reflexivity|discriminate].
Qed.

Lemma decrypt_has_no_length_check_witness :
  box_decrypt (B := RefBox.scheme) RefBox.randy (RefBox.public RefBox.alice)
    (RefBox.seal RefBox.alice (RefBox.public RefBox.randy)
                 [x01; x02] RefBox.nonce24)
  = Ok [x01; x02] /\
  exists s k,
    decrypt (B := RefBox.scheme) 5
      (RefBox.seal RefBox.alice (RefBox.public RefBox.randy)
                   [x01; x02] RefBox.nonce24)
      RefBox.randy (RefBox.public RefBox.alice) = Ok (s, k) /\
    (Z.of_nat (List.length [x01; x02]) <= 5 -> s = [x01; x02] /\ k = 0) /\
    (0 <= 5 <= Z.of_nat (List.length [x01; x02]) ->
     s = firstn (Z.to_nat 5) [x01; x02] /\
     k = from_bytes_big (skipn (Z.to_nat 5) [x01; x02])).
Proof.
  assert (H : box_decrypt (B := RefBox.scheme)
                RefBox.randy (RefBox.public RefBox.alice)
                (RefBox.seal RefBox.alice (RefBox.public RefBox.randy)
                             [x01; x02] RefBox.nonce24)
              = Ok [x01; x02]) by (vm_compute; reflexivity).
  split; [exact H|].
  exact (decrypt_has_no_length_check RefBox.scheme 5 _ _ _ _ H).
Defined.

(** C8, as stated, fails: a sealed two-byte plaintext, opened with the
    expected secret length 5, is returned as a pair (the two bytes and the
    nonce 0) instead of being rejected. *)
Lemma decrypt_short_payload_accepted :
  exists c,
    encrypt (B := RefBox.scheme) [x01; x02] 0
            RefBox.alice (RefBox.public RefBox.randy) RefBox.nonce24 = Ok c /\
    box_decrypt (B := RefBox.scheme) RefBox.randy (RefBox.public RefBox.alice) c
    = Ok [x01; x02] /\
    decrypt (B := RefBox.scheme) 5 c RefBox.randy (RefBox.public RefBox.alice)
    = Ok ([x01; x02], 0).
Proof.
  eexists. split; [vm_compute; reflexivity|].
  split; vm_compute; reflexivity.
Qed.


(* ================================================================== *)
(** * Further properties of the module *)

(** ** [int_to_bytes] and [bytes_to_int] *)

Lemma from_bytes_big_app (l l' : bytes) :
  from_bytes_big (l ++ l')
  = from_bytes_big l * 256 ^ Z.of_nat (List.length l') + from_bytes_big l'.
Proof.
  induction l' as [|d l' IH] using rev_ind.
  - rewrite app_nil_r. simpl. unfold from_bytes_big at 3. simpl. lia.
  - rewrite app_assoc, !from_bytes_big_snoc, IH.
    rewrite length_app, Nat2Z.inj_add. simpl List.length.
    rewrite Z.pow_add_r by lia. change (256 ^ Z.of_nat 1) with 256. ring.
Qed.

Lemma from_bytes_big_range (b : bytes) :
  0 <= from_bytes_big b < 256 ^ Z.of_nat (List.length b).
Proof.
  induction b as [|d b IH] using rev_ind.
  - simpl. unfold from_bytes_big. simpl. lia.
  - rewrite from_bytes_big_snoc, length_app, Nat2Z.inj_add.
    simpl List.length. rewrite Z.pow_add_r by lia.
    change (256 ^ Z.of_nat 1) with 256.
    pose proof (byte_to_Z_range d). nia.
Qed.

(** The digits of [from_bytes_big b], taken [length b] at a time, are [b]. *)
Lemma digits_of_from_bytes_big (b : bytes) :
  rev (le_digits (List.length b) (from_bytes_big b)) = b.
Proof.
  induction b as [|d b IH] using rev_ind; [reflexivity|].
  rewrite from_bytes_big_snoc, length_app, Nat.add_comm. simpl.
  pose proof (byte_to_Z_range d) as Rd.
  replace ((from_bytes_big b * 256 + byte_to_Z d) mod 256) with (byte_to_Z d)
    by (rewrite Z.add_comm, Z.mod_add by lia; symmetry; apply Z.mod_small, Rd).
  replace ((from_bytes_big b * 256 + byte_to_Z d) / 256) with (from_bytes_big b)
    by (rewrite Z.add_comm, Z.div_add by lia;
        rewrite (Z.div_small _ _ Rd); reflexivity).
  rewrite IH, byte_of_to_Z. reflexivity.
Qed.

Lemma le_digits_snoc (k : nat) (x : Z) :
  le_digits (S k) x
  = le_digits k x ++ [byte_of_Z ((x / 256 ^ Z.of_nat k) mod 256)].
Proof.
  revert x. induction k as [|k IH]; intros x.
  - simpl. rewrite Z.div_1_r. reflexivity.
  - rewrite Nat2Z.inj_succ, Z.pow_succ_r by lia.
    change (le_digits (S (S k)) x)
      with (byte_of_Z (x mod 256) :: le_digits (S k) (x / 256)).
    rewrite IH.
    change (le_digits (S k) x)
      with (byte_of_Z (x mod 256) :: le_digits k (x / 256)).
    rewrite Z.div_div by (try apply Z.pow_pos_nonneg; lia).
    reflexivity.
Qed.

(** X1. [bytes_to_int] undoes [int_to_bytes]: every non-negative integer is
    encoded, and decoding the encoding gives the integer back. *)
Theorem int_to_bytes_round_trip (x : Z) :
  0 <= x -> exists e, int_to_bytes x = Ok e /\ bytes_to_int e = x.
Proof.
  intros Hx. eexists. split; [apply (int_to_bytes_nonneg x Hx)|].
  apply bytes_to_int_to_bytes, int_to_bytes_nonneg, Hx.
Qed.

Lemma int_to_bytes_round_trip_witness :
  0 <= 65537 /\ exists e, int_to_bytes 65537 = Ok e /\ bytes_to_int e = 65537.
Proof.
  split; [lia|]. apply int_to_bytes_round_trip. lia.
Defined.

(** X2. The encoding of a non-negative integer is minimal: it has
    [(bit_length + 7) / 8] bytes and does not start with a zero byte. *)
Theorem int_to_bytes_minimal (x : Z) :
  0 <= x ->
  exists e,
    int_to_bytes x = Ok e /\
    Z.of_nat (List.length e) = (bit_length x + 7) / 8 /\
    forall d rest, e = d :: rest -> d <> x00.
Proof.
  intros Hx. pose proof (encoded_length_nonneg x) as Hk.
  eexists. split; [apply (int_to_bytes_nonneg x Hx)|]. split.
  - rewrite length_rev, le_digits_length, Z2Nat.id by exact Hk. reflexivity.
  - intros d rest He.
    destruct (Z.to_nat ((bit_length x + 7) / 8)) as [|k] eqn:Ek;
      [discriminate He|].
    rewrite le_digits_snoc, rev_app_distr in He. simpl in He.
    injection He as Hd _.
    assert (HK : (bit_length x + 7) / 8 = Z.of_nat k + 1) by lia.
    assert (Hnz : x <> 0).
    { intros ->. vm_compute in Ek. discriminate. }
    pose proof (bit_length_fits x Hx) as Hhi. rewrite HK in Hhi.
    rewrite Z.pow_add_r in Hhi by lia. change (256 ^ 1) with 256 in Hhi.
    assert (Hlo : 256 ^ Z.of_nat k <= x).
    { unfold bit_length in HK. destruct (Z.eqb_spec x 0); [contradiction|].
      rewrite Z.abs_eq in HK by exact Hx.
      pose proof (Z.log2_spec x ltac:(lia)) as [Hl _].
      pose proof (Z.log2_nonneg x).
      eapply Z.le_trans; [|exact Hl].
      change 256 with (2 ^ 8). rewrite <- Z.pow_mul_r by lia.
      apply Z.pow_le_mono_r; [lia|].
      pose proof (Z.div_mod (Z.log2 x + 1 + 7) 8 ltac:(lia)).
      pose proof (Z.mod_pos_bound (Z.log2 x + 1 + 7) 8 ltac:(lia)). lia. }
    assert (Hp : 0 < 256 ^ Z.of_nat k) by (apply Z.pow_pos_nonneg; lia).
    assert (Hq : 1 <= x / 256 ^ Z.of_nat k < 256).
    { split.
      - apply Z.div_le_lower_bound; lia.
      - apply Z.div_lt_upper_bound; lia. }
    intros ->. apply (f_equal byte_to_Z) in Hd.
    rewrite byte_to_of_Z, Z.mod_mod, Z.mod_small in Hd by lia.
    change (byte_to_Z x00) with 0 in Hd. lia.
Qed.

Lemma int_to_bytes_minimal_witness :
  0 <= 256 /\
  exists e,
    int_to_bytes 256 = Ok e /\
    Z.of_nat (List.length e) = (bit_length 256 + 7) / 8 /\
    forall d rest, e = d :: rest -> d <> x00.
Proof.
  split; [lia|]. apply int_to_bytes_minimal. lia.
Defined.

(** X3. [bytes_to_int] reads a number below [256 ^ len], and it does not see
    leading zero bytes. *)
Theorem bytes_to_int_range_and_leading_zeros (b : bytes) (k : nat) :
  0 <= bytes_to_int b < 256 ^ Z.of_nat (List.length b) /\
  bytes_to_int (repeat x00 k ++ b) = bytes_to_int b.
Proof.
  unfold bytes_to_int. split; [apply from_bytes_big_range|].
  rewrite from_bytes_big_app, from_bytes_big_zeros. lia.
Qed.

(** X4. [int_to_bytes] after [bytes_to_int] strips the leading zero bytes:
    a string [b] that does not start with a zero byte comes back as [b],
    also when it is read with [k] zero bytes in front. *)
Theorem int_to_bytes_of_bytes_to_int (b : bytes) (k : nat) :
  (forall d rest, b = d :: rest -> d <> x00) ->
  int_to_bytes (bytes_to_int (repeat x00 k ++ b)) = Ok b.
Proof.
  intros Hcanon. unfold bytes_to_int.
  rewrite from_bytes_big_app, from_bytes_big_zeros, Z.mul_0_l, Z.add_0_l.
  pose proof (from_bytes_big_range b) as [Hlo Hhi].
  rewrite (int_to_bytes_nonneg _ Hlo).
  assert (HK : (bit_length (from_bytes_big b) + 7) / 8
               = Z.of_nat (List.length b)).
  { destruct b as [|d rest]; [reflexivity|].
    specialize (Hcanon d rest eq_refl).
    assert (Hd : 1 <= byte_to_Z d).
    { pose proof (byte_to_Z_range d).
      destruct (Z.eq_dec (byte_to_Z d) 0) as [E|]; [|lia].
      exfalso. apply Hcanon. apply byte_to_Z_inj. exact E. }
    pose proof (from_bytes_big_app [d] rest) as Happ. simpl app in Happ.
    pose proof (from_bytes_big_range rest) as Hr.
    replace (from_bytes_big [d]) with (byte_to_Z d) in Happ
      by (unfold from_bytes_big; simpl; lia).
    set (v := from_bytes_big (d :: rest)) in *.
    set (n := Z.of_nat (List.length rest)) in *.
    assert (Hn : 0 <= n) by (unfold n; lia).
    assert (Hp : 0 < 256 ^ n) by (apply Z.pow_pos_nonneg; lia).
    assert (Hv : 256 ^ n <= v) by nia.
    simpl List.length in *. rewrite Nat2Z.inj_succ in *. fold n in Hhi |- *.
    unfold bit_length. destruct (Z.eqb_spec v 0); [lia|].
    rewrite Z.abs_eq by lia.
    assert (L1 : 8 * n <= Z.log2 v).
    { apply Z.log2_le_pow2; [lia|]. rewrite Z.pow_mul_r by lia. exact Hv. }
    assert (L2 : Z.log2 v < 8 * Z.succ n).
    { apply Z.log2_lt_pow2; [lia|]. rewrite Z.pow_mul_r by lia. exact Hhi. }
    symmetry. apply (Z.div_unique _ 8 _ (Z.log2 v + 1 + 7 - 8 * Z.succ n));
      lia. }
  rewrite HK, Nat2Z.id, digits_of_from_bytes_big. reflexivity.
Qed.

Lemma int_to_bytes_of_bytes_to_int_witness :
  (forall d rest, [x01; x00] = d :: rest -> d <> x00) /\
  int_to_bytes (bytes_to_int (repeat x00 3 ++ [x01; x00])) = Ok [x01; x00].
Proof.
  assert (H : forall d rest, [x01; x00] = d :: rest -> d <> x00).
  { intros d rest E. injection E as <- _. discriminate. }
  split; [exact H|]. exact (int_to_bytes_of_bytes_to_int [x01; x00] 3 H).
Defined.



Example encrypt_negative_nonces :
  encrypt (B := RefBox.scheme) [x01] (-1)
          RefBox.alice (RefBox.public RefBox.randy) RefBox.nonce24
  = Err ValueError /\
  encrypt (B := RefBox.scheme) [x01] (- 2 ^ 63)
          RefBox.alice (RefBox.public RefBox.randy) RefBox.nonce24
  = Err ValueError /\
  encrypt (B := RefBox.scheme) [x01] (- 2 ^ 63 - 1)
          RefBox.alice (RefBox.public RefBox.randy) RefBox.nonce24
  = Err OverflowError /\
  encrypt (B := RefBox.scheme) [x01] (2 ^ 63)
          RefBox.alice (RefBox.public RefBox.randy) RefBox.nonce24
  = Err OverflowError.
Proof. repeat split. Qed.

(** ** The commitment engine, continued *)

(** X6. For a non-negative nonce [verify] never raises, and it accepts a
    hash exactly when it is the SHA-256 digest of the secret followed by the
    encoded nonce; every accepted hash is 32 bytes long. *)
Theorem verify_accepts_exactly_the_digest (s : bytes) (n : Z) (h : bytes) :
  0 <= n ->
  exists e,
    int_to_bytes n = Ok e /\
    (exists b, verify s n h = Ok b) /\
    (verify s n h = Ok true <-> h = SHA256.digest (s ++ e)) /\
    (verify s n h = Ok true -> List.length h = 32%nat).
Proof.
  intros Hn. pose proof (int_to_bytes_nonneg n Hn) as E.
  eexists. split; [exact E|]. unfold verify. rewrite E. cbn [bind].
  split; [eexists; reflexivity|].
  assert (Hiff : forall d, Ok (bytes_eqb h d) = Ok true <-> h = d).
  { intros d. rewrite <- bytes_eqb_eq.
    split; [intros H; injection H as H; exact H|intros ->; reflexivity]. }
  split; [apply Hiff|].
  intros H. apply Hiff in H. rewrite H. apply sha256_length.
Qed.

Lemma verify_accepts_exactly_the_digest_witness :
  0 <= 7 /\
  exists e,
    int_to_bytes 7 = Ok e /\
    (exists b, verify [x01; x02] 7 [xff] = Ok b) /\
    (verify [x01; x02] 7 [xff] = Ok true <->
     [xff] = SHA256.digest ([x01; x02] ++ e)) /\
    (verify [x01; x02] 7 [xff] = Ok true -> List.length [xff] = 32%nat).
Proof.
  split; [lia|]. apply verify_accepts_exactly_the_digest. lia.
Defined.

(** X7. Whenever [generate] returns, the nonce was non-negative, the hash
    has 32 bytes, the secret is the forged one if one was given and
    otherwise what the entropy source returned, and [verify] accepts the
    pair. *)
Theorem generate_returns_a_commitment
        (urandom : Z -> result bytes) (len nonce : Z)
        (fb : option bytes) (s h : bytes) :
  generate urandom len nonce fb = Ok (s, h) ->
  0 <= nonce /\
  List.length h = 32%nat /\
  match fb with Some f => s = f | None => urandom len = Ok s end /\
  verify s nonce h = Ok true.
Proof.
  intros H. destruct (Z.lt_ge_cases nonce 0) as [Hneg|Hn].
  - exfalso. unfold generate in H.
    rewrite (int_to_bytes_negative nonce Hneg) in H.
    destruct fb; [discriminate H|].
    destruct (urandom len); discriminate H.
  - split; [exact Hn|]. unfold generate, verify in *.
    rewrite (int_to_bytes_nonneg nonce Hn) in *. cbn [bind] in *.
    destruct fb as [f|].
    + cbn [bind] in H. injection H as <- <-.
      split; [apply sha256_length|]. split; [reflexivity|].
      rewrite bytes_eqb_refl. reflexivity.
    + destruct (urandom len) as [s'|e]; [|discriminate H].
      cbn [bind] in H. injection H as <- <-.
      split; [apply sha256_length|]. split; [reflexivity|].
      rewrite bytes_eqb_refl. reflexivity.
Qed.

Lemma generate_returns_a_commitment_witness :
  generate (os_urandom (fun _ => x2a)) 3 9 None
  = Ok ([x2a; x2a; x2a], SHA256.digest [x2a; x2a; x2a; x09]) /\
  0 <= 9 /\
  List.length (SHA256.digest [x2a; x2a; x2a; x09]) = 32%nat /\
  os_urandom (fun _ => x2a) 3 = Ok [x2a; x2a; x2a] /\
  verify [x2a; x2a; x2a] 9 (SHA256.digest [x2a; x2a; x2a; x09]) = Ok true.
Proof.
  assert (H : generate (os_urandom (fun _ => x2a)) 3 9 None
              = Ok ([x2a; x2a; x2a], SHA256.digest [x2a; x2a; x2a; x09]))
    by reflexivity.
  split; [exact H|].
  exact (generate_returns_a_commitment _ 3 9 None _ _ H).
Defined.

(** ** [xor_all], continued *)

Lemma byte_xor_assoc (a b c : byte) :
  byte_xor (byte_xor a b) c = byte_xor a (byte_xor b c).
Proof.
  apply byte_to_Z_inj. rewrite !byte_xor_to_Z. apply Z.lxor_assoc.
Qed.

Lemma xor_bytes_assoc (a b c : bytes) :
  xor_bytes (xor_bytes a b) c = xor_bytes a (xor_bytes b c).
Proof.
  revert b c. induction a as [|p a IH]; intros [|q b] [|t c];
    try reflexivity.
  unfold xor_bytes in *. simpl. rewrite byte_xor_assoc. f_equal. apply IH.
Qed.

Lemma xor_loop_assoc (l : list bytes) (a b : bytes) :
  fold_left xor_bytes l (xor_bytes a b)
  = xor_bytes a (fold_left xor_bytes l b).
Proof.
  revert b. induction l as [|c l IH]; intros b; simpl; [reflexivity|].
  rewrite xor_bytes_assoc. apply IH.
Qed.

Lemma column_xor_cons (i : nat) (a : bytes) (rest : list bytes) :
  column_xor i (a :: rest)
  = Z.lxor (byte_to_Z (nth i a x00)) (column_xor i rest).
Proof. reflexivity. Qed.

Lemma column_xor_perm (i : nat) (x y : list bytes) :
  Permutation x y -> column_xor i x = column_xor i y.
Proof.
  induction 1 as [|a x y _ IH|a b x|x y z _ IH1 _ IH2].
  - reflexivity.
  - rewrite !column_xor_cons, IH. reflexivity.
  - rewrite !column_xor_cons, <- !Z.lxor_assoc.
    rewrite (Z.lxor_comm (byte_to_Z (nth i b x00))). reflexivity.
  - rewrite IH1. exact IH2.
Qed.

Lemma shortest_attained (x0 : bytes) (rest : list bytes) :
  exists b, In b (x0 :: rest) /\ List.length b = shortest x0 rest.
Proof.
  unfold shortest. induction rest as [|y rest [b [Hin Hb]]].
  - exists x0. split; [left|]; reflexivity.
  - simpl fold_right.
    destruct (Nat.min_dec (List.length y)
                (fold_right Nat.min (List.length x0)
                            (map (@List.length byte) rest))) as [E|E];
      rewrite E.
    + exists y. split; [right; left|]; reflexivity.
    + exists b. split; [|exact Hb].
      destruct Hin as [<-|Hin]; [left; reflexivity|right; right; exact Hin].
Qed.

Lemma shortest_le_all (x0 : bytes) (rest : list bytes) (b : bytes) :
  In b (x0 :: rest) -> (shortest x0 rest <= List.length b)%nat.
Proof.
  intros [<-|H]; [apply shortest_le_head|apply shortest_le_each, H].
Qed.

Lemma shortest_perm (x0 y0 : bytes) (xr yr : list bytes) :
  Permutation (x0 :: xr) (y0 :: yr) -> shortest x0 xr = shortest y0 yr.
Proof.
  intros P.
  destruct (shortest_attained x0 xr) as [b [Hb Eb]].
  destruct (shortest_attained y0 yr) as [c [Hc Ec]].
  pose proof (shortest_le_all y0 yr b (Permutation_in _ P Hb)).
  pose proof (shortest_le_all x0 xr c
                (Permutation_in _ (Permutation_sym P) Hc)).
  lia.
Qed.

Lemma bytes_ext (a b : bytes) :
  List.length a = List.length b ->
  (forall i, (i < List.length a)%nat ->
             byte_to_Z (nth i a x00) = byte_to_Z (nth i b x00)) ->
  a = b.
Proof.
  intros Hl Hn. apply (nth_ext a b x00 x00 Hl).
  intros i Hi. apply byte_to_Z_inj, Hn, Hi.
Qed.

(** XORing the other shares in again gives a share back, when all the
    strings have the same length. *)
Lemma xor_loop_recover (a : bytes) (rest : list bytes) (L : nat) :
  (forall b, In b (a :: rest) -> List.length b = L) ->
  fold_left xor_bytes rest (fold_left xor_bytes rest a) = a.
Proof.
  intros Hlen.
  pose proof (shortest_uniform a rest L Hlen) as HL.
  assert (Hr : List.length (fold_left xor_bytes rest a) = L)
    by (rewrite xor_loop_length; exact HL).
  assert (Hlen' : forall b, In b (fold_left xor_bytes rest a :: rest) ->
                            List.length b = L).
  { intros b [<-|Hb]; [exact Hr|apply Hlen; right; exact Hb]. }
  pose proof (shortest_uniform _ rest L Hlen') as HL'.
  assert (Ha : List.length a = L) by (apply Hlen; left; reflexivity).
  apply bytes_ext.
  - rewrite xor_loop_length. lia.
  - intros i Hi. rewrite xor_loop_length in Hi.
    rewrite xor_loop_nth by exact Hi.
    rewrite column_xor_cons, xor_loop_nth by lia.
    rewrite column_xor_cons, Z.lxor_assoc, Z.lxor_nilpotent, Z.lxor_0_r.
    reflexivity.
Qed.

(** X8. The order of the inputs does not matter: [xor_all] gives the same
    result, or the same failure, on every permutation of a list. *)
Theorem xor_all_permutation (x y : list bytes) :
  Permutation x y -> xor_all x = xor_all y.
Proof.
  intros P. destruct x as [|x0 xr].
  - apply Permutation_nil in P. subst y. reflexivity.
  - destruct y as [|y0 yr].
    + apply Permutation_sym, Permutation_nil in P. discriminate P.
    + simpl. f_equal. apply bytes_ext.
      * rewrite !xor_loop_length. apply shortest_perm, P.
      * intros i Hi. rewrite xor_loop_length in Hi.
        rewrite xor_loop_nth by exact Hi.
        rewrite xor_loop_nth
          by (rewrite <- (shortest_perm _ _ _ _ P); exact Hi).
        apply column_xor_perm, P.
Qed.

Lemma xor_all_permutation_witness :
  Permutation [[x01; x02]; [x10]; [xff; x0f; x00]]
              [[xff; x0f; x00]; [x01; x02]; [x10]] /\
  xor_all [[x01; x02]; [x10]; [xff; x0f; x00]]
  = xor_all [[xff; x0f; x00]; [x01; x02]; [x10]].
Proof.
  assert (P : Permutation [[x01; x02]; [x10]; [xff; x0f; x00]]
                          [[xff; x0f; x00]; [x01; x02]; [x10]]).
  { apply Permutation_sym.
    apply (Permutation_cons_app [[x01; x02]; [x10]] [] [xff; x0f; x00]).
    rewrite app_nil_r. apply Permutation_refl. }
  split; [exact P|]. exact (xor_all_permutation _ _ P).
Defined.

(** X9. Aggregation can be done in parts: XORing two non-empty lists
    separately and then XORing the two results is the same as XORing the
    concatenated list. *)
Theorem xor_all_app (x y : list bytes) :
  x <> [] -> y <> [] ->
  exists a b,
    xor_all x = Ok a /\ xor_all y = Ok b /\
    xor_all (x ++ y) = xor_all [a; b].
Proof.
  intros Hx Hy.
  destruct x as [|x0 xr]; [contradiction|].
  destruct y as [|y0 yr]; [contradiction|].
  exists (fold_left xor_bytes xr x0), (fold_left xor_bytes yr y0).
  split; [reflexivity|]. split; [reflexivity|].
  simpl. rewrite fold_left_app. simpl. rewrite xor_loop_assoc. reflexivity.
Qed.

Lemma xor_all_app_witness :
  [[x01]; [x02]] <> [] /\ [[x04]; [x08]; [x10]] <> [] /\
  exists a b,
    xor_all [[x01]; [x02]] = Ok a /\
    xor_all [[x04]; [x08]; [x10]] = Ok b /\
    xor_all ([[x01]; [x02]] ++ [[x04]; [x08]; [x10]]) = xor_all [a; b].
Proof.
  split; [discriminate|]. split; [discriminate|].
  apply xor_all_app; discriminate.
Defined.

(** X10. A share can be recovered from the aggregate: when all strings have
    the same length, XORing the result of [xor_all (a :: rest)] with the
    other shares [rest] once more gives [a] back. *)
Theorem xor_all_recovers_share (a : bytes) (rest : list bytes) (L : nat) :
  (forall b, In b (a :: rest) -> List.length b = L) ->
  exists r, xor_all (a :: rest) = Ok r /\ xor_all (r :: rest) = Ok a.
Proof.
  intros Hlen. exists (fold_left xor_bytes rest a).
  split; [reflexivity|]. simpl. f_equal.
  apply (xor_loop_recover a rest L Hlen).
Qed.

Lemma xor_all_recovers_share_witness :
  (forall b, In b [[x11; x11]; [xff; xff]; [x5a; xa5]] ->
             List.length b = 2%nat) /\
  exists r,
    xor_all [[x11; x11]; [xff; xff]; [x5a; xa5]] = Ok r /\
    xor_all [r; [xff; xff]; [x5a; xa5]] = Ok [x11; x11].
Proof.
  assert (H : forall b, In b [[x11; x11]; [xff; xff]; [x5a; xa5]] ->
                        List.length b = 2%nat).
  { simpl. intros b [<-|[<-|[<-|[]]]]; reflexivity. }
  split; [exact H|]. exact (xor_all_recovers_share _ _ 2%nat H).
Defined.

(** X11. One share decides the aggregate: with the other shares fixed and
    all strings of the same length, two different values of one share give
    two different results (the map from the share to the aggregate is
    one-to-one). *)
Theorem xor_all_share_injective (a a' : bytes) (rest : list bytes) (L : nat) :
  (forall b, In b (a :: rest) -> List.length b = L) ->
  List.length a' = L ->
  a <> a' ->
  xor_all (a :: rest) <> xor_all (a' :: rest).
Proof.
  intros Hlen Ha' Hne E. apply Hne. simpl in E. injection E as E.
  assert (Hlen' : forall b, In b (a' :: rest) -> List.length b = L).
  { intros b [<-|Hb]; [exact Ha'|apply Hlen; right; exact Hb]. }
  rewrite <- (xor_loop_recover a rest L Hlen), E.
  apply (xor_loop_recover a' rest L Hlen').
Qed.

Lemma xor_all_share_injective_witness :
  (forall b, In b [[x01]; [x02]] -> List.length b = 1%nat) /\
  List.length [x03] = 1%nat /\
  [x01] <> [x03] /\
  xor_all [[x01]; [x02]] <> xor_all [[x03]; [x02]].
Proof.
  assert (H : forall b, In b [[x01]; [x02]] -> List.length b = 1%nat).
  { simpl. intros b [<-|[<-|[]]]; reflexivity. }
  assert (N : [x01] <> [x03]) by discriminate.
  split; [exact H|]. split; [reflexivity|]. split; [exact N|].
  exact (xor_all_share_injective [x01] [x03] [[x02]] 1%nat H eq_refl N).
Defined.

Lemma byte_xor_fixed (a b : byte) : byte_xor a b = a <-> b = x00.
Proof.
  split.
  - intros E. apply (f_equal byte_to_Z) in E. rewrite byte_xor_to_Z in E.
    apply byte_to_Z_inj. change (byte_to_Z x00) with 0.
    rewrite <- (Z.lxor_nilpotent (byte_to_Z a)). rewrite <- E at 2.
    rewrite <- Z.lxor_assoc, Z.lxor_nilpotent, Z.lxor_0_l. reflexivity.
  - intros ->. apply byte_to_Z_inj. rewrite byte_xor_to_Z.
    change (byte_to_Z x00) with 0. apply Z.lxor_0_r.
Qed.

(** X12. XORing with [b] leaves a string [a] of the same length unchanged
    exactly when [b] consists of zero bytes. *)
Theorem xor_all_unchanged_iff_zero (a b : bytes) :
  List.length a = List.length b ->
  (xor_all [a; b] = Ok a <-> b = repeat x00 (List.length a)).
Proof.
  intros Hl. simpl xor_all.
  assert (H : xor_bytes a b = a <-> b = repeat x00 (List.length a)).
  { revert b Hl. induction a as [|p a IH]; intros [|q b] Hl; simpl in Hl;
      try discriminate.
    - split; reflexivity.
    - unfold xor_bytes in *. simpl. split.
      + intros E. injection E as E1 E2.
        apply byte_xor_fixed in E1. apply IH in E2; [|lia]. congruence.
      + intros E. injection E as E1 E2.
        f_equal; [apply byte_xor_fixed, E1|apply IH; [lia|exact E2]]. }
  split.
  - intros E. injection E as E. apply H, E.
  - intros E. f_equal. apply H, E.
Qed.

Lemma xor_all_unchanged_iff_zero_witness :
  List.length [xab; xcd] = List.length [x00; x00] /\
  (xor_all [[xab; xcd]; [x00; x00]] = Ok [xab; xcd] <->
   [x00; x00] = repeat x00 (List.length [xab; xcd])).
Proof.
  split; [reflexivity|]. apply xor_all_unchanged_iff_zero. reflexivity.
Defined.

(** ** The secure channel, continued *)

(** X13. What [encrypt] seals: whenever it returns a ciphertext, the nonce
    [n] lies between 0 and [sys.maxsize] and the plaintext is the secret
    followed by [n] zero bytes, so over a sound box the receiver's box opens
    the message to a plaintext of [len(secret) + n] bytes. *)
Theorem encrypt_seals_secret_and_zeros
        (B : BoxScheme) (skA skB : PrivateKey B)
        (secret : bytes) (nonce : Z) (r c : bytes) :
  box_sound B ->
  List.length r = 24%nat ->
  encrypt secret nonce skA (public_key skB) r = Ok c ->
  0 <= nonce <= sys_maxsize /\
  exists p,
    box_decrypt skB (public_key skA) c = Ok p /\
    p = secret ++ repeat x00 (Z.to_nat nonce) /\
    Z.of_nat (List.length p) = Z.of_nat (List.length secret) + nonce.
Proof.
  intros Hbox Hr He. unfold encrypt in He.
  destruct (bytes_of_int nonce) as [z|e] eqn:Ez; [|discriminate He].
  cbn [bind] in He. injection He as <-.
  destruct (bytes_of_int_ok nonce z Ez) as [Hn ->].
  split; [exact Hn|]. eexists.
  split; [apply (Hbox skA skB _ r Hr)|]. split; [reflexivity|].
  rewrite length_app, repeat_length. lia.
Qed.

Lemma encrypt_seals_secret_and_zeros_witness :
  box_sound RefBox.scheme /\
  List.length RefBox.nonce24 = 24%nat /\
  encrypt (B := RefBox.scheme) [x2a] 3
          RefBox.alice (public_key (B := RefBox.scheme) RefBox.randy)
          RefBox.nonce24
  = Ok (RefBox.seal RefBox.alice (RefBox.public RefBox.randy)
                    [x2a; x00; x00; x00] RefBox.nonce24) /\
  0 <= 3 <= sys_maxsize /\
  exists p,
    box_decrypt (B := RefBox.scheme)
                RefBox.randy (public_key (B := RefBox.scheme) RefBox.alice)
                (RefBox.seal RefBox.alice (RefBox.public RefBox.randy)
                             [x2a; x00; x00; x00] RefBox.nonce24)
    = Ok p /\
    p = [x2a] ++ repeat x00 (Z.to_nat 3) /\
    Z.of_nat (List.length p) = Z.of_nat (List.length [x2a]) + 3.
Proof.
  split; [exact ref_box_sound|]. split; [reflexivity|].
  split; [reflexivity|].
  apply (encrypt_seals_secret_and_zeros
           RefBox.scheme RefBox.alice RefBox.randy [x2a] 3 RefBox.nonce24);
    [exact ref_box_sound|reflexivity|reflexivity].
Defined.

(** X14. [decrypt] splits the opened plaintext and loses no byte: for every
    expected length [n], negative ones included, the secret it returns and
    the bytes it reads the nonce from make up the plaintext; the secret has
    [min(len, n)] bytes for [n >= 0] and [max(0, len + n)] for [n < 0]. *)
Theorem decrypt_splits_plaintext
        (B : BoxScheme) (n : Z) (c : bytes)
        (sk : PrivateKey B) (pk : PublicKey B) (p : bytes) :
  box_decrypt sk pk c = Ok p ->
  exists s tail,
    decrypt n c sk pk = Ok (s, bytes_to_int tail) /\
    s ++ tail = p /\
    Z.of_nat (List.length s)
    = if n <? 0 then Z.max 0 (Z.of_nat (List.length p) + n)
      else Z.min (Z.of_nat (List.length p)) n.
Proof.
  intros Hp. exists (slice_to p n), (slice_from p n).
  unfold decrypt. rewrite Hp. cbn [bind].
  split; [reflexivity|]. unfold slice_to, slice_from.
  split; [apply firstn_skipn|].
  rewrite length_firstn. unfold slice_index.
  destruct (Z.ltb_spec n 0); lia.
Qed.

Lemma decrypt_splits_plaintext_witness :
  box_decrypt (B := RefBox.scheme) RefBox.randy (RefBox.public RefBox.alice)
    (RefBox.seal RefBox.alice (RefBox.public RefBox.randy)
                 [x01; x02; x03] RefBox.nonce24)
  = Ok [x01; x02; x03] /\
  exists s tail,
    decrypt (B := RefBox.scheme) (-1)
      (RefBox.seal RefBox.alice (RefBox.public RefBox.randy)
                   [x01; x02; x03] RefBox.nonce24)
      RefBox.randy (RefBox.public RefBox.alice)
    = Ok (s, bytes_to_int tail) /\
    s ++ tail = [x01; x02; x03] /\
    Z.of_nat (List.length s)
    = if -1 <? 0 then Z.max 0 (Z.of_nat (List.length [x01; x02; x03]) + -1)
      else Z.min (Z.of_nat (List.length [x01; x02; x03])) (-1).
Proof.
  assert (H : box_decrypt (B := RefBox.scheme)
                RefBox.randy (RefBox.public RefBox.alice)
                (RefBox.seal RefBox.alice (RefBox.public RefBox.randy)
                             [x01; x02; x03] RefBox.nonce24)
              = Ok [x01; x02; x03]) by (vm_compute; reflexivity).
  split; [exact H|].
  exact (decrypt_splits_plaintext RefBox.scheme (-1) _ _ _ _ H).
Defined.

(** ** [bytes_to_binary] *)

Lemma append_empty_r (s : string) : (s ++ "")%string = s.
Proof.
  induction s as [|c s IH]; simpl; [|rewrite IH]; reflexivity.
Qed.

Lemma append_length (s t : string) :
  String.length (s ++ t) = (String.length s + String.length t)%nat.
Proof.
  induction s as [|c s IH]; simpl; [|rewrite IH]; reflexivity.
Qed.

Lemma list_ascii_of_append (s t : string) :
  list_ascii_of_string (s ++ t)
  = list_ascii_of_string s ++ list_ascii_of_string t.
Proof.
  induction s as [|c s IH]; simpl; [|rewrite IH]; reflexivity.
Qed.

Lemma bytes_to_binary_cons (b : byte) (x : bytes) :
  bytes_to_binary (b :: x) = (format_08b b ++ bytes_to_binary x)%string.
Proof.
  unfold bytes_to_binary. destruct x as [|q x].
  - change (format_08b b = (format_08b b ++ "")%string).
    symmetry. apply append_empty_r.
  - reflexivity.
Qed.

Lemma bit_char_binary (v i : Z) :
  bit_char v i = "0"%char \/ bit_char v i = "1"%char.
Proof.
  unfold bit_char. destruct (Z.testbit v i); [right|left]; reflexivity.
Qed.

(** The value of one binary digit character. *)
Lemma bit_char_value (v i : Z) :
  (if Ascii.eqb (bit_char v i) "1" then 1 else 0) = Z.b2z (Z.testbit v i).
Proof.
  unfold bit_char. destruct (Z.testbit v i); reflexivity.
Qed.

Lemma byte_bits_sum (b : byte) :
  byte_to_Z b
  = 128 * Z.b2z (Z.testbit (byte_to_Z b) 7)
    + 64 * Z.b2z (Z.testbit (byte_to_Z b) 6)
    + 32 * Z.b2z (Z.testbit (byte_to_Z b) 5)
    + 16 * Z.b2z (Z.testbit (byte_to_Z b) 4)
    + 8 * Z.b2z (Z.testbit (byte_to_Z b) 3)
    + 4 * Z.b2z (Z.testbit (byte_to_Z b) 2)
    + 2 * Z.b2z (Z.testbit (byte_to_Z b) 1)
    + Z.b2z (Z.testbit (byte_to_Z b) 0).
Proof.
  destruct b; vm_compute; reflexivity.
Qed.

Lemma format_08b_chars (b : byte) :
  format_08b b
  = String (bit_char (byte_to_Z b) 7) (String (bit_char (byte_to_Z b) 6)
    (String (bit_char (byte_to_Z b) 5) (String (bit_char (byte_to_Z b) 4)
    (String (bit_char (byte_to_Z b) 3) (String (bit_char (byte_to_Z b) 2)
    (String (bit_char (byte_to_Z b) 1) (String (bit_char (byte_to_Z b) 0)
    EmptyString))))))).
Proof. reflexivity. Qed.

Lemma binary_value_from_format (acc : Z) (b : byte) (s : string) :
  binary_value_from acc (format_08b b ++ s)
  = binary_value_from (256 * acc + byte_to_Z b) s.
Proof.
  rewrite format_08b_chars. cbn [append binary_value_from].
  rewrite !bit_char_value. f_equal.
  rewrite (byte_bits_sum b) at 9. ring.
Qed.

(** X15. [bytes_to_binary] writes eight characters per byte, and only the
    characters 0 and 1. *)
Theorem bytes_to_binary_shape (x : bytes) :
  String.length (bytes_to_binary x) = (8 * List.length x)%nat /\
  forall c, In c (list_ascii_of_string (bytes_to_binary x)) ->
            c = "0"%char \/ c = "1"%char.
Proof.
  induction x as [|b x [IHl IHc]].
  - split; [reflexivity|]. intros c [].
  - rewrite bytes_to_binary_cons. split.
    + rewrite append_length, IHl. simpl List.length.
      change (String.length (format_08b b)) with 8%nat. lia.
    + intros c Hc. rewrite list_ascii_of_append in Hc.
      apply in_app_or in Hc. destruct Hc as [Hc|Hc]; [|apply IHc, Hc].
      rewrite format_08b_chars in Hc. simpl in Hc.
      repeat (destruct Hc as [<-|Hc]; [apply bit_char_binary|]).
      destruct Hc.
Qed.

(** X16. [bytes_to_binary] is the base-2 writing of [bytes_to_int]: read as
    a binary numeral, the string denotes the integer that [bytes_to_int]
    returns for the same bytes. *)
Theorem bytes_to_binary_value (x : bytes) :
  binary_value (bytes_to_binary x) = bytes_to_int x.
Proof.
  unfold binary_value, bytes_to_int, from_bytes_big.
  generalize 0 as acc. induction x as [|b x IH]; intros acc.
  - reflexivity.
  - rewrite bytes_to_binary_cons, binary_value_from_format, IH.
    cbn [fold_left].
    replace (256 * acc + byte_to_Z b) with (acc * 256 + byte_to_Z b) by lia.
    reflexivity.
Qed.

Lemma bytes_to_binary_eq (a b : bytes) :
  bytes_to_binary a = bytes_to_binary b -> a = b.
Proof.
  revert b. induction a as [|p a IH]; intros [|q b] E.
  - reflexivity.
  - rewrite bytes_to_binary_cons, format_08b_chars in E. discriminate E.
  - rewrite bytes_to_binary_cons, format_08b_chars in E. discriminate E.
  - rewrite !bytes_to_binary_cons, !format_08b_chars in E.
    cbn [append] in E.
    injection E as E7 E6 E5 E4 E3 E2 E1 E0 Er.
    f_equal; [|apply IH, Er].
    apply byte_to_Z_inj.
    rewrite (byte_bits_sum p), (byte_bits_sum q).
    rewrite <- !bit_char_value.
    rewrite E7, E6, E5, E4, E3, E2, E1, E0. reflexivity.
Qed.

(** X17. [bytes_to_binary] is one-to-one: two different byte strings have
    different binary strings. *)
Theorem bytes_to_binary_injective (a b : bytes) :
  a <> b -> bytes_to_binary a <> bytes_to_binary b.
Proof.
  intros Hne E. apply Hne, bytes_to_binary_eq, E.
Qed.

Lemma bytes_to_binary_injective_witness :
  [x00; x01] <> [x01] /\ bytes_to_binary [x00; x01] <> bytes_to_binary [x01].
Proof.
  assert (N : [x00; x01] <> [x01]) by discriminate.
  split; [exact N|]. exact (bytes_to_binary_injective _ _ N).
Defined.

Example bytes_to_binary_a5_01 :
  bytes_to_binary [xa5; x01] = "1010010100000001"%string.
Proof. reflexivity. Qed.

(** ** [main] *)

(** X18. The demonstration run succeeds: over a sound box, when the entropy
    source delivers the 32 bytes asked for, both [assert verify(...)] hold
    and [main] prints Alice's number, Bob's forged number, the number of
    their XOR, and the count of its decimal digits. *)
Theorem main_prints
        (B : BoxScheme) (urandom : Z -> result bytes)
        (randy alice bob : PrivateKey B) (r_alice r_bob ra : bytes) :
  box_sound B ->
  urandom 32 = Ok ra ->
  List.length ra = 32%nat ->
  List.length r_alice = 24%nat ->
  List.length r_bob = 24%nat ->
  main urandom randy alice bob r_alice r_bob
  = Printed [ bytes_to_int ra;
              bytes_to_int deadbeef4;
              bytes_to_int (xor_bytes ra deadbeef4);
              decimal_length (bytes_to_int (xor_bytes ra deadbeef4)) ].
Proof.
  intros Hbox Hu Hra Hr1 Hr2. unfold main, generate, encrypt.
  rewrite Hu. change (int_to_bytes 0) with (@Ok bytes []).
  change (bytes_of_int 0) with (@Ok bytes []).
  cbn [bind try]. unfold decrypt.
  rewrite (Hbox alice randy _ r_alice Hr1), (Hbox bob randy _ r_bob Hr2).
  cbn [bind try]. rewrite !app_nil_r.
  assert (S1 : forall p, List.length p = 32%nat ->
                         slice_to p 32 = p /\ slice_from p 32 = []).
  { intros p Hp. apply slice_past_end. rewrite Hp. lia. }
  destruct (S1 ra Hra) as [-> ->].
  destruct (S1 deadbeef4 eq_refl) as [-> ->].
  change (from_bytes_big []) with 0. unfold verify.
  change (int_to_bytes 0) with (@Ok bytes []). cbn [bind try].
  rewrite !app_nil_r, !bytes_eqb_refl. cbn [assert try xor_all fold_left].
  reflexivity.
Qed.

Lemma main_prints_witness :
  box_sound RefBox.scheme /\
  os_urandom (fun _ => x11) 32 = Ok (repeat x11 32) /\
  List.length (repeat x11 32) = 32%nat /\
  List.length RefBox.nonce24 = 24%nat /\
  List.length RefBox.nonce24 = 24%nat /\
  main (B := RefBox.scheme) (os_urandom (fun _ => x11))
       RefBox.randy RefBox.alice 99%N RefBox.nonce24 RefBox.nonce24
  = Printed [ bytes_to_int (repeat x11 32);
              bytes_to_int deadbeef4;
              bytes_to_int (xor_bytes (repeat x11 32) deadbeef4);
              decimal_length
                (bytes_to_int (xor_bytes (repeat x11 32) deadbeef4)) ].
Proof.
  split; [exact ref_box_sound|]. split; [reflexivity|].
  split; [reflexivity|]. split; [reflexivity|]. split; [reflexivity|].
  apply (main_prints RefBox.scheme);
    [exact ref_box_sound|reflexivity|reflexivity|reflexivity|reflexivity].
Defined.
